(** * GitHub e-mail finder: the resolution route and the page's submit handler

    A shallow embedding of the route behind [/api/emails] (the [POST]
    handler, [resolveName], the three GitHub helpers and [dedupe]) and of
    the [handleRun] callback of [app/page.tsx].

    Conventions of the embedding
    - a JS string is a [string]; its characters are code units below 256;
    - [null] and [undefined] are both [None]: the code only tests them with
      [?.], [??], [||] and truthiness, which do not tell them apart;
    - the GitHub REST service is an oracle [github] threaded through a world
      state; every call and every [sleep] is appended to a trace;
    - [await]ed code is a state-and-exception monad [M]; the unbounded
      [while (true)] of [getOrgMembers] takes a fuel argument and answers
      [Diverge] when it runs out. *)

From Stdlib Require Import ZArith Ascii Lia.
From stdpp Require Import base gmap strings list pretty.
From Equations Require Import Equations.

(** ** JavaScript strings *)

Module JsString.

(** [WhiteSpace] and [LineTerminator] code units below 256: TAB, LF, VT,
    FF, CR, SP and NBSP. *)
Definition is_whitespace (c : ascii) : bool :=
  let n := nat_of_ascii c in
  ((9 <=? n)%nat && (n <=? 13)%nat) || (n =? 32)%nat || (n =? 160)%nat.

Fixpoint trimStart (s : string) : string :=
  match s with
  | EmptyString => EmptyString
  | String c r => if is_whitespace c then trimStart r else s
  end.

Fixpoint trimEnd (s : string) : string :=
  match s with
  | EmptyString => EmptyString
  | String c r =>
      match trimEnd r with
      | EmptyString => if is_whitespace c then EmptyString else String c EmptyString
      | r' => String c r'
      end
  end.

(** [s.trim()] *)
Definition trim (s : string) : string := trimEnd (trimStart s).

(** Truthiness of a string: every string but the empty one. *)
Definition truthy (s : string) : bool :=
  match s with EmptyString => false | String _ _ => true end.

(** Truthiness of a value that is a string, [null] or [undefined]. *)
Definition truthy_opt (o : option string) : bool :=
  match o with Some s => truthy s | None => false end.

(** [o || d] on such a value. *)
Definition or_else (o : option string) (d : string) : string :=
  match o with Some s => if truthy s then s else d | None => d end.

(** [s.split(/[\n,]/g)]: cut at every line feed and every comma. *)
Definition is_separator (c : ascii) : bool :=
  (nat_of_ascii c =? 10)%nat || (nat_of_ascii c =? 44)%nat.

Fixpoint split (s : string) : list string :=
  match s with
  | EmptyString => [EmptyString]
  | String c r =>
      if is_separator c then EmptyString :: split r
      else match split r with
           | h :: t => String c h :: t
           | [] => [String c EmptyString]
           end
  end.

(** A string is blank when trimming leaves nothing. *)
Definition blank (s : string) : bool := negb (truthy (trim s)).

End JsString.

(** ** [dedupe]

    [seen] is the [Set], [out] the array under construction; the [for .. of]
    loop is a left fold over the input. *)

Definition dedupe_step (acc : gset string * list string) (v : string)
  : gset string * list string :=
  let '(seen, out) := acc in
  if decide (v ∈ seen) then (seen, out) else ({[v]} ∪ seen, out ++ [v]).

Definition dedupe (arr : list string) : list string :=
  (foldl dedupe_step (∅, []) arr).2.

(** The reading of [dedupe] in words: the element at index [i] is kept exactly
    when it does not occur at an earlier index. *)
Definition first_occurrences (xs : list string) : list string :=
  omap (fun i => x ← xs !! i; if decide (x ∈ take i xs) then None else Some x)
       (seq 0 (length xs)).

(** The same, by recursion on the list with the prefix already read. *)
Fixpoint keep_new (prev xs : list string) : list string :=
  match xs with
  | [] => []
  | x :: r =>
      if decide (x ∈ prev) then keep_new (prev ++ [x]) r
      else x :: keep_new (prev ++ [x]) r
  end.

(** ** The GitHub REST surface *)

(** The three requests the route sends.  [SearchCommits a] is
    [GET /search/commits?q=author:a&per_page=5&sort=author-date&order=desc],
    [GetUser l] is [GET /users/l] and [OrgMembers o n p] is
    [GET /orgs/o/members?per_page=n&page=p]. *)
Inductive Request :=
| SearchCommits (author : string)
| GetUser (login : string)
| OrgMembers (org : string) (perPage page : nat).

(** One element of [data.items]: what [it?.commit?.author?.email] and
    [it?.commit?.author?.name] evaluate to. *)
Record CommitItem := { author_email : option string; author_name : option string }.

(** The fields read from a [/users/:login] document. *)
Record Account := {
  account_type : option string;
  account_name : option string;
  account_email : option string }.

(** One element of a member page: what [m?.login] evaluates to. *)
Record MemberItem := { item_login : option string }.

(** A parsed response body, by the shape the helpers look at: an object with
    an [items] array, an account object, a top-level array, anything else.
    The fields the helpers read are strings or absent, as in GitHub's schema
    and in the route's own type annotations ([emails: string[]],
    [{ name?: string; email?: string }], [Array<{ login: string }>]). *)
Inductive Json :=
| JSearch (items : list CommitItem)
| JAccount (a : Account)
| JArray (data : list MemberItem)
| JOther.

(** What [res.json()] settles to. *)
Inductive Body := Malformed (msg : string) | Parsed (j : Json).

Record Response := { status : Z; body : Body }.

(** [res.ok] *)
Definition ok (res : Response) : bool :=
  (200 <=? status res)%Z && (status res <=? 299)%Z.

(** What [fetch] settles to: rejected on a network failure. *)
Inductive FetchResult := Rejected (msg : string) | Fulfilled (res : Response).

(** ** Results *)

Inductive ResultType := type_user | type_org.

Record UserRow := {
  u_login : string;
  u_name : option string;
  u_profileUrl : string;
  u_emails : list string }.

Record ResultItem := {
  r_input : string;
  r_type : ResultType;
  r_users : list UserRow }.

Record CommitEmails := { ce_emails : list string; ce_name : option string }.

Record Profile := { p_name : option string; p_email : option string }.

Record OrgMember := { m_login : string }.

(** The JSON the route answers with, and its status. *)
Inductive ApiBody :=
| ApiOk (results : list ResultItem)
| ApiError (error : string).

Record ApiResponse := { api_status : Z; api_body : ApiBody }.

(** The ways a body that [req.json()] reads leaves the type [Input] so that
    the second line of the handler raises a [TypeError]: the body is [null]
    (reading [body.inputs] fails); [inputs] is a truthy value that is no
    array (a non-empty string, a non-zero number, [true], an object: there
    is no [map] to call); an entry of the array is a truthy value that is no
    string (a non-zero number, [true], an object, an array: there is no
    [trim] to call). *)
Inductive IllTyped := NullBody | InputsNoArray | EntryNoString.

(** The request body: [BadBody] when [req.json()] rejects; [GoodBody] with
    the [inputs] field, which the handler guards with [|| []], and its
    elements, which it guards with [|| ""]: the field is [None] when it is
    missing or falsy (as on a body that is a number, a string, a boolean or
    an array), an element is [None] when it is falsy and no string;
    [IllTypedBody] for a body that is read but ill-typed, with the message
    of the [TypeError] the engine raises. *)
Inductive ReqBody :=
| BadBody (msg : string)
| GoodBody (inputs : option (list (option string)))
| IllTypedBody (shape : IllTyped) (msg : string).

(** ** The monad of awaited code *)

Inductive Event := EvFetch (r : Request) | EvSleep (ms : nat).

Record St (W : Type) := mkSt { world : W; trace : list Event }.
Arguments mkSt {W} _ _.
Arguments world {W} _.
Arguments trace {W} _.

Inductive Outcome (A : Type) :=
| Ret (a : A)
| Throw (msg : string)
| Diverge.
Arguments Ret {A} _.
Arguments Throw {A} _.
Arguments Diverge {A}.

Definition M (W A : Type) : Type := St W → Outcome A * St W.

Definition ret {W A} (a : A) : M W A := fun s => (Ret a, s).

Definition bind {W A B} (m : M W A) (k : A → M W B) : M W B :=
  fun s =>
    match m s with
    | (Ret a, s') => k a s'
    | (Throw msg, s') => (Throw msg, s')
    | (Diverge, s') => (Diverge, s')
    end.

#[global] Instance M_ret {W} : MRet (M W) := fun A => ret.
#[global] Instance M_bind {W} : MBind (M W) := fun A B k m => bind m k.

(** [throw new Error(msg)] *)
Definition throw {W A} (msg : string) : M W A := fun s => (Throw msg, s).

Definition diverge {W A} : M W A := fun s => (Diverge, s).

(** [m.catch(() => v)] *)
Definition catch {W A} (m : M W A) (v : A) : M W A :=
  fun s =>
    match m s with
    | (Throw _, s') => (Ret v, s')
    | r => r
    end.

(** [try { m } catch (e) { h e.message }] *)
Definition try_catch {W A} (m : M W A) (h : string → M W A) : M W A :=
  fun s =>
    match m s with
    | (Throw msg, s') => h msg s'
    | r => r
    end.

(** [sleep(ms)] *)
Definition sleep {W} (ms : nat) : M W unit :=
  fun s => (Ret (), mkSt (world s) (trace s ++ [EvSleep ms])).

(** [res.json()] *)
Definition json {W} (res : Response) : M W Json :=
  match body res with
  | Malformed msg => throw msg
  | Parsed j => ret j
  end.

(** The requests of a trace, in the order they were sent. *)
Definition fetches (t : list Event) : list Request :=
  omap (fun e => match e with EvFetch r => Some r | EvSleep _ => None end) t.

Section Route.

Context {W : Type}.

(** The service: each request is answered from the current world state,
    which the answer may change. *)
Variable github : Request → W → FetchResult * W.

#[local] Abbreviation M := (M W).

(** [fetch(url, { headers: baseHeaders })] *)
Definition fetch (r : Request) : M Response :=
  fun s =>
    let '(fr, w') := github r (world s) in
    let s' := mkSt w' (trace s ++ [EvFetch r]) in
    match fr with
    | Rejected msg => (Throw msg, s')
    | Fulfilled res => (Ret res, s')
    end.

(** *** [tryCommitEmail] *)

(** The body of the loop over [items]. *)
Definition commit_step (acc : list string * option string) (it : CommitItem)
  : list string * option string :=
  let '(emails, authorName) := acc in
  let emails' :=
    match author_email it with
    | Some email => if JsString.truthy email then emails ++ [email] else emails
    | None => emails
    end in
  let authorName' :=
    if negb (JsString.truthy_opt authorName) && JsString.truthy_opt (author_name it)
    then author_name it else authorName in
  (emails', authorName').

Definition tryCommitEmail (username : string) : M (option CommitEmails) :=
  res ← fetch (SearchCommits username);
  if (status res =? 422)%Z then mret None
  else if (status res =? 403)%Z then
    throw "GitHub API rate limit exceeded or forbidden (403). Add or rotate a token."
  else if negb (ok res) then mret None
  else
    data ← json res;
    let items := match data with JSearch items => items | _ => [] end in
    match items with
    | [] => mret None
    | _ :: _ =>
        let '(emails, authorName) := foldl commit_step ([], None) items in
        mret (Some {| ce_emails := dedupe emails; ce_name := authorName |})
    end.

(** *** [checkIsOrg] *)

Definition checkIsOrg (name : string) : M bool :=
  res ← fetch (GetUser name);
  if negb (ok res) then mret false
  else
    data ← json res;
    mret match data with
         | JAccount a => bool_decide (account_type a = Some "Organization")
         | _ => false
         end.

(** *** [getUserProfile] *)

Definition getUserProfile (username : string) : M (option Profile) :=
  res ← fetch (GetUser username);
  if negb (ok res) then mret None
  else
    data ← json res;
    mret (Some match data with
               | JAccount a => {| p_name := account_name a; p_email := account_email a |}
               | _ => {| p_name := None; p_email := None |}
               end).

(** *** [getOrgMembers] *)

Definition perPage : nat := 100.

(** [for (const m of data) if (m?.login) members.push({ login: m.login })] *)
Definition push_logins (members : list OrgMember) (data : list MemberItem)
  : list OrgMember :=
  foldl (fun members m =>
           match item_login m with
           | Some l => if JsString.truthy l then members ++ [{| m_login := l |}] else members
           | None => members
           end) members data.

(** The [while (true)] loop; one unit of fuel per page request. *)
Fixpoint getOrgMembers_loop (fuel : nat) (org : string) (page : nat)
    (members : list OrgMember) : M (list OrgMember) :=
  match fuel with
  | O => diverge
  | S fuel' =>
      res ← fetch (OrgMembers org perPage page);
      if (status res =? 404)%Z then mret members
      else if (status res =? 403)%Z then
        throw "Org members forbidden or rate limited (403)."
      else if negb (ok res) then mret members
      else
        data ← json res;
        match data with
        | JArray ((_ :: _) as data) =>
            let members' := push_logins members data in
            if (length data <? perPage)%nat then mret members'
            else
              _ ← sleep 120;
              getOrgMembers_loop fuel' org (page + 1) members'
        | _ => mret members
        end
  end.

Definition getOrgMembers (fuel : nat) (org : string) : M (list OrgMember) :=
  getOrgMembers_loop fuel org 1 [].

(** *** [resolveName] *)

Definition profileUrl (login : string) : string := "https://github.com/" +:+ login.

(** [profile?.email ? [profile.email] : []] *)
Definition profileEmail (profile : option Profile) : list string :=
  match profile ≫= p_email with
  | Some email => if JsString.truthy email then [email] else []
  | None => []
  end.

(** The callback mapped over a chunk of members, up to the first request
    it awaits: the profile lookup. *)
Definition memberProfile (m : OrgMember) : M (option Profile) :=
  catch (getUserProfile (m_login m)) None.

(** The rest of the callback, resumed with the profile: the commit search
    and the row. *)
Definition memberRow (m : OrgMember) (profile : option Profile) : M UserRow :=
  commitResult ← catch (tryCommitEmail (m_login m)) None;
  let commitEmails := from_option ce_emails [] commitResult in
  mret {| u_login := m_login m;
          u_name := profile ≫= p_name;
          u_profileUrl := profileUrl (m_login m);
          u_emails := dedupe (profileEmail profile ++ commitEmails) |}.

(** [Promise.all(chunk.map(async (m) => { .. }))].  [map] runs every callback
    up to its first [await], so the profile requests of the chunk are sent
    first, in member order; the callbacks are then resumed, here in member
    order (the order in which answers arrive is the one freedom of the event
    loop).  The rows come in member order, and a callback that fails makes
    the whole fail. *)
Definition enrich_chunk (chunk : list OrgMember) : M (list UserRow) :=
  profiles ← mapM memberProfile chunk;
  mapM (fun mp => memberRow mp.1 mp.2) (zip chunk profiles).

Definition batchSize : nat := 5.

(** [arr.slice(i, j)] for [0 <= i <= j] *)
Definition slice {A} (i j : nat) (arr : list A) : list A := take (j - i) (drop i arr).

(** [for (let i = 0; i < members.length; i += batchSize) { .. }], entered
    at index [i] with the rows pushed so far. *)
Equations enrich_batches (members : list OrgMember) (i : nat) (users : list UserRow)
  : M (list UserRow) by wf (length members - i) lt :=
enrich_batches members i users with decide (i < length members) := {
  | left _ =>
      chunkResults ← enrich_chunk (slice i (i + batchSize) members);
      _ ← sleep 250;
      enrich_batches members (i + batchSize) (users ++ chunkResults)
  | right _ => mret users }.
Next Obligation. unfold batchSize. lia. Qed.

(** The branch taken when the name is not an organization. *)
Definition resolveProfile (name : string) : M ResultItem :=
  profile ← catch (getUserProfile name) None;
  mret {| r_input := name;
          r_type := type_user;
          r_users := [ {| u_login := name;
                          u_name := profile ≫= p_name;
                          u_profileUrl := profileUrl name;
                          u_emails := dedupe (profileEmail profile) |} ] |}.

(** The org branch. *)
Definition resolveOrg (fuel : nat) (name : string) : M ResultItem :=
  members ← catch (getOrgMembers fuel name) [];
  users ← enrich_batches members 0 [];
  mret {| r_input := name; r_type := type_org; r_users := users |}.

Definition resolveName (fuel : nat) (name : string) : M ResultItem :=
  userEmail ← catch (tryCommitEmail name) None;
  let otherwise : M ResultItem :=
    isOrg ← catch (checkIsOrg name) false;
    if negb isOrg then resolveProfile name else resolveOrg fuel name in
  match userEmail with
  | Some found =>
      if (0 <? length (ce_emails found))%nat then
        mret {| r_input := name;
                r_type := type_user;
                r_users := [ {| u_login := name;
                                u_name := ce_name found;
                                u_profileUrl := profileUrl name;
                                u_emails := dedupe (ce_emails found) |} ] |}
      else otherwise
  | None => otherwise
  end.

(** *** [POST] *)

(** [(body.inputs || []).map(s => (s || "").trim()).filter(Boolean)] *)
Definition raw_names (inputs : option (list (option string))) : list string :=
  List.filter JsString.truthy
    ((fun s => JsString.trim (JsString.or_else s "")) <$> default [] inputs).

(** [for (const name of raw) { .. }], with the results pushed so far. *)
Fixpoint resolve_each (fuel : nat) (raw : list string) (results : list ResultItem)
  : M (list ResultItem) :=
  match raw with
  | [] => mret results
  | name :: raw' =>
      resolved ← resolveName fuel name;
      _ ← sleep 150;
      resolve_each fuel raw' (results ++ [resolved])
  end.

Definition POST (fuel : nat) (req : ReqBody) : M ApiResponse :=
  try_catch
    (inputs ← match req with
              | BadBody msg => throw msg
              | GoodBody inputs => mret inputs
              | IllTypedBody _ msg => throw msg
              end;
     results ← resolve_each fuel (raw_names inputs) [];
     mret {| api_status := 200; api_body := ApiOk results |})
    (fun msg =>
       mret {| api_status := 500;
               api_body := ApiError (JsString.or_else (Some msg) "Unknown error") |}).

(** *** [handleRun] of the page *)

(** The three pieces of React state the callback sets. *)
Record PageState := {
  loading : bool;
  data : option (list ResultItem);
  error : option string }.

(** The final state after [handleRun] with the text [input] in the box.
    The request to [/api/emails] is answered by [POST]. *)
Definition handleRun (fuel : nat) (input : string) : M PageState :=
  let inputs := List.filter JsString.truthy (JsString.trim <$> JsString.split input) in
  match inputs with
  | [] =>
      mret {| loading := false;
              data := None;
              error := Some "Please enter at least one GitHub username or organization." |}
  | _ :: _ =>
      res ← POST fuel (GoodBody (Some (Some <$> inputs)));
      let failed (msg : string) :=
        {| loading := false;
           data := None;
           error := Some (JsString.or_else (Some msg) "Unknown error") |} in
      let res_ok := (200 <=? api_status res)%Z && (api_status res <=? 299)%Z in
      mret match api_body res with
           | ApiOk results =>
               if res_ok then {| loading := false; data := Some results; error := None |}
               else failed ("Request failed (" +:+ pretty (api_status res) +:+ ")")
           | ApiError e =>
               failed (JsString.or_else (Some e)
                         ("Request failed (" +:+ pretty (api_status res) +:+ ")"))
           end
  end.

End Route.

(** ** What the helpers make of an answer

    The helpers below read an answer of the service the way the route's
    helpers do; the run lemmas that follow relate each helper to them. *)

(** The commit items of an answer to a commit search: those of a success
    response whose body has an [items] array. *)
Definition search_items (fr : FetchResult) : list CommitItem :=
  match fr with
  | Fulfilled res =>
      if ok res then
        match body res with Parsed (JSearch items) => items | _ => [] end
      else []
  | Rejected _ => []
  end.

(** The non-empty author e-mails of commit items, in item order. *)
Definition author_emails (items : list CommitItem) : list string :=
  omap (fun it => e ← author_email it; if JsString.truthy e then Some e else None) items.

(** The first non-empty author name of commit items. *)
Definition first_author_name (items : list CommitItem) : option string :=
  head (omap (fun it => n ← author_name it; if JsString.truthy n then Some n else None)
             items).

(** The account document of an answer to a user lookup, when it has one. *)
Definition account_of (fr : FetchResult) : option Account :=
  match fr with
  | Fulfilled res =>
      if ok res then
        match body res with Parsed (JAccount a) => Some a | _ => None end
      else None
  | Rejected _ => None
  end.

(** The account of an answer to a user lookup is an organization. *)
Definition is_organization (fr : FetchResult) : bool :=
  match account_of fr with
  | Some a => bool_decide (account_type a = Some "Organization")
  | None => false
  end.

(** A user lookup fails when the request is rejected, the status is not a
    success status or the body does not parse. *)
Definition lookup_failed (fr : FetchResult) : bool :=
  match fr with
  | Fulfilled res =>
      if ok res then
        match body res with Malformed _ => true | Parsed _ => false end
      else true
  | Rejected _ => true
  end.

(** The profile [getUserProfile] makes of an answer, [null] when the lookup
    failed. *)
Definition profile_of (fr : FetchResult) : option Profile :=
  if lookup_failed fr then None
  else Some {| p_name := account_of fr ≫= account_name;
               p_email := account_of fr ≫= account_email |}.

(** The state after one request answered with world [w']. *)
Definition after {W} (s : St W) (r : Request) (w' : W) : St W :=
  mkSt w' (trace s ++ [EvFetch r]).

(** ** Reading a run

    Notions used to state what the route does. *)

(** The public e-mail of an answer to a user lookup: the [email] of the
    account document, when it is a non-empty string. *)
Definition public_email (fr : FetchResult) : list string :=
  match account_of fr ≫= account_email with
  | Some email => if JsString.truthy email then [email] else []
  | None => []
  end.

(** The row of a member whose profile lookup was answered with [fr1] and
    whose commit search was answered with [fr2]. *)
Definition member_row (m : OrgMember) (fr1 fr2 : FetchResult) : UserRow :=
  {| u_login := m_login m;
     u_name := account_of fr1 ≫= account_name;
     u_profileUrl := profileUrl (m_login m);
     u_emails := dedupe (public_email fr1 ++ author_emails (search_items fr2)) |}.

(** The result for an individual account. *)
Definition user_result (name : string) (displayName : option string)
    (emails : list string) : ResultItem :=
  {| r_input := name;
     r_type := type_user;
     r_users := [ {| u_login := name;
                     u_name := displayName;
                     u_profileUrl := profileUrl name;
                     u_emails := emails |} ] |}.

(** The strings of the [inputs] field, a missing field read as the empty
    list and a [null] entry as the empty string. *)
Definition names_of (inputs : option (list (option string))) : list string :=
  (fun o => JsString.or_else o "") <$> default [] inputs.

(** Every row of every result has duplicate-free e-mails. *)
Definition emails_distinct (results : list ResultItem) : Prop :=
  Forall (fun r => Forall (fun u => NoDup (u_emails u)) (r_users r)) results.

(** A computation appends to the trace: it never rewrites what was logged. *)
Definition appends {W A} (m : M W A) : Prop :=
  ∀ s o s', m s = (o, s') → ∃ evs, trace s' = trace s ++ evs.

(** The answer that ends an enumeration, with the members it contributes:
    a 404, or a success page shorter than [perPage] (an empty one included). *)
Inductive FinalPage : FetchResult → list MemberItem → Prop :=
| FinalPage_not_found res :
    status res = 404%Z → FinalPage (Fulfilled res) []
| FinalPage_short res data :
    ok res = true → body res = Parsed (JArray data) → length data < perPage →
    FinalPage (Fulfilled res) data.

(** A full page: a success response whose body is an array of at least
    [perPage] items.  It is the one answer after which the enumeration asks
    for the next page. *)
Definition full_page (fr : FetchResult) : bool :=
  match fr with
  | Fulfilled res =>
      ok res && match body res with
                | Parsed (JArray data) => (perPage <=? length data)%nat
                | _ => false
                end
  | Rejected _ => false
  end.

(** The trace of an enumeration that reads [n] full pages from page [p] on
    and then one last page. *)
Fixpoint page_events (org : string) (p n : nat) : list Event :=
  match n with
  | O => [EvFetch (OrgMembers org perPage p)]
  | S n' => EvFetch (OrgMembers org perPage p) :: EvSleep 120 :: page_events org (p + 1) n'
  end.

Section Service.

Context {W : Type} (github : Request → W → FetchResult * W).

(** [fr] is an answer the service gives to the request [r]. *)
Definition Answers (r : Request) (fr : FetchResult) : Prop :=
  ∃ w w', github r w = (fr, w').

(** A row is the enrichment of a member when it is made of an answer to the
    member's profile lookup and an answer to its commit search. *)
Definition Enriched (m : OrgMember) (row : UserRow) : Prop :=
  ∃ fr1 fr2,
    Answers (GetUser (m_login m)) fr1
    ∧ Answers (SearchCommits (m_login m)) fr2
    ∧ row = member_row m fr1 fr2.

(** [Serves org w p pages last w']: from the world [w] on, the requests for
    the pages [p], [p + 1], .. of [org] are answered with the success pages
    [pages], one after the other, and then with [last], which leaves the
    world [w']. *)
Inductive Serves (org : string)
  : W → nat → list (list MemberItem) → FetchResult → W → Prop :=
| Serves_last w p last w' :
    github (OrgMembers org perPage p) w = (last, w') →
    Serves org w p [] last w'
| Serves_page w p res data w1 pages last w' :
    github (OrgMembers org perPage p) w = (Fulfilled res, w1) →
    ok res = true → body res = Parsed (JArray data) →
    Serves org w1 (p + 1) pages last w' →
    Serves org w p (data :: pages) last w'.

(** From the world [w] on, the member pages of [org] end before the
    [fuel]-th: the service answers with fewer than [fuel] full pages, page 1
    first, and then with an answer that is no full page. *)
Definition PagesEnd (fuel : nat) (org : string) (w : W) : Prop :=
  ∃ pages last w',
    Serves org w 1 pages last w'
    ∧ Forall (fun data => perPage ≤ length data) pages
    ∧ full_page last = false
    ∧ length pages < fuel.

(** [fuel] is enough for every member enumeration the service may be asked
    for. *)
Definition enumerations_end (fuel : nat) : Prop :=
  ∀ org s, (getOrgMembers github fuel org s).1 ≠ Diverge.

End Service.

(** ** Sample worlds *)

Module Sample.

(** A service whose answers depend on the request alone. *)
Definition stateless (f : Request → FetchResult) : Request → unit → FetchResult * unit :=
  fun r w => (f r, w).

Definition start : St unit := mkSt () [].

Definition respond (st : Z) (j : Json) : FetchResult :=
  Fulfilled {| status := st; body := Parsed j |}.

(** A rate limit that is used up: every request is refused with a 403. *)
Definition rate_limited (r : Request) : FetchResult := respond 403 JOther.

Definition commit (email name : option string) : CommitItem :=
  {| author_email := email; author_name := name |}.

Definition account (type name email : option string) : FetchResult :=
  respond 200 (JAccount {| account_type := type;
                           account_name := name;
                           account_email := email |}).

(** An organization [acme] whose own commits carry no author e-mail, with
    the members [amy] (profile and commits), [bob] (commits only, profile
    lookup refused) and an entry without login; [vercel] is an organization
    login that also authors commits. *)
Definition acme (r : Request) : FetchResult :=
  match r with
  | SearchCommits "acme" =>
      respond 200 (JSearch [commit None None; commit (Some "") (Some "Acme Bot")])
  | SearchCommits "amy" =>
      respond 200 (JSearch [commit (Some "amy@x.org") (Some "Amy");
                            commit (Some "amy@x.org") (Some "Amy A.");
                            commit (Some "a@y.org") None])
  | SearchCommits "bob" =>
      respond 200 (JSearch [commit (Some "bob@x.org") (Some "Bob");
                            commit (Some "Bob@x.org") None;
                            commit (Some "bob@x.org") None])
  | SearchCommits "vercel" =>
      respond 200 (JSearch [commit (Some "bot@vercel.com") (Some "Vercel Bot")])
  | GetUser "acme" => account (Some "Organization") (Some "Acme") None
  | GetUser "vercel" => account (Some "Organization") (Some "Vercel") None
  | GetUser "amy" => account (Some "User") (Some "Amy A.") (Some "a@y.org")
  | GetUser "bob" => respond 500 JOther
  | OrgMembers "acme" _ 1 =>
      respond 200 (JArray [ {| item_login := Some "amy" |};
                            {| item_login := Some "bob" |};
                            {| item_login := None |} ])
  | _ => respond 404 JOther
  end.

(** The one member page of [acme]. *)
Definition acme_page : list MemberItem :=
  [ {| item_login := Some "amy" |}; {| item_login := Some "bob" |};
    {| item_login := None |} ].

(** An organization [team] over the accounts of [acme]: its one member
    page lists [amy], [bob], whose profile lookup is refused, and [zed], of
    whom the service knows nothing. *)
Definition team_page : list MemberItem :=
  [ {| item_login := Some "amy" |}; {| item_login := Some "bob" |};
    {| item_login := Some "zed" |} ].

Definition team (r : Request) : FetchResult :=
  match r with
  | GetUser "team" => account (Some "Organization") None None
  | OrgMembers "team" _ 1 => respond 200 (JArray team_page)
  | _ => acme r
  end.

(** Member pages of the sizes 100, 100 and 37. *)
Definition page_of (n : nat) : list MemberItem :=
  replicate n {| item_login := Some "dev" |}.

Definition big (r : Request) : FetchResult :=
  match r with
  | OrgMembers "big" _ 1 => respond 200 (JArray (page_of 100))
  | OrgMembers "big" _ 2 => respond 200 (JArray (page_of 100))
  | OrgMembers "big" _ 3 => respond 200 (JArray (page_of 37))
  | _ => respond 404 JOther
  end.

(** An organization whose first member page is full and whose second page
    is refused with a 403, or fails with a 500. *)
Definition forbidden_page (r : Request) : FetchResult :=
  match r with
  | OrgMembers "big" _ 1 => respond 200 (JArray (page_of 100))
  | _ => respond 403 JOther
  end.

Definition failing_page (r : Request) : FetchResult :=
  match r with
  | OrgMembers "big" _ 1 => respond 200 (JArray (page_of 100))
  | _ => respond 500 JOther
  end.

(** What [acme] is resolved to in the world [acme]. *)
Definition acme_result : ResultItem :=
  {| r_input := "acme";
     r_type := type_org;
     r_users :=
       [ {| u_login := "amy"; u_name := Some "Amy A.";
            u_profileUrl := "https://github.com/amy";
            u_emails := ["a@y.org"; "amy@x.org"] |};
         {| u_login := "bob"; u_name := None;
            u_profileUrl := "https://github.com/bob";
            u_emails := ["bob@x.org"; "Bob@x.org"] |} ] |}.

End Sample.

(** ** The table and the CSV export of the page *)

(** The string the route sends for a result type. *)
Definition type_name (t : ResultType) : string :=
  match t with type_user => "user" | type_org => "org" end.

(** One element of [rows]. *)
Record Row := {
  row_source : string;
  row_kind : string;
  row_login : string;
  row_name : option string;
  row_profileUrl : string;
  row_email : string }.

(** The object pushed to [out] for the user [u] of the result [r] and the
    e-mail [e]. *)
Definition row_of (r : ResultItem) (u : UserRow) (e : string) : Row :=
  {| row_source := r_input r;
     row_kind := type_name (r_type r);
     row_login := u_login u;
     row_name := u_name u;
     row_profileUrl := u_profileUrl u;
     row_email := e |}.

(** The rows of one user: one per e-mail, or one with an empty e-mail. *)
Definition user_rows (r : ResultItem) (u : UserRow) : list Row :=
  match u_emails u with
  | [] => [row_of r u ""]
  | _ :: _ => row_of r u <$> u_emails u
  end.

(** The [rows] memo: [[]] without data, else the rows of every user of every
    result, in order. *)
Definition rows (data : option (list ResultItem)) : list Row :=
  match data with
  | None => []
  | Some data => r ← data; u ← r_users r; user_rows r u
  end.

(** The e-mail column of the rows of a user: the e-mails, or one empty
    cell. *)
Definition email_cells (u : UserRow) : list string :=
  match u_emails u with [] => [""] | es => es end.

(** The number of rows of a list of users. *)
Definition row_count (us : list UserRow) : nat :=
  sum_list_with (fun u => max 1 (length (u_emails u))) us.

Module Csv.

Definition quote : ascii := "034"%char.
Definition comma : ascii := ","%char.
Definition LF : ascii := "010"%char.

Definition header : list string :=
  ["source_input"; "resolved_kind"; "login"; "name"; "profile_url"; "email"].

(** The [replace] of [escape]: every quote is written twice. *)
Fixpoint double_quotes (s : string) : string :=
  match s with
  | EmptyString => EmptyString
  | String c r =>
      if Ascii.eqb c quote then String quote (String quote (double_quotes r))
      else String c (double_quotes r)
  end.

(** The [escape] arrow function. *)
Definition escape (s : string) : string :=
  String quote (double_quotes (JsString.or_else (Some s) "") +:+ String quote "").

(** The array pushed to [lines] for one row. *)
Definition line (r : Row) : string :=
  String.concat (String comma "")
    [escape (row_source r); escape (row_kind r); escape (row_login r);
     escape (default "" (row_name r)); escape (row_profileUrl r);
     escape (row_email r)].

(** [lines.join("\n")] *)
Definition text (rows : list Row) : string :=
  String.concat (String LF "") (String.concat (String comma "") header :: (line <$> rows)).

(** What [downloadCSV] hands to the browser: the blob and the name of the
    file the anchor downloads. *)
Record Download := { blob_text : string; blob_type : string; download : string }.

(** [downloadCSV]: nothing without rows. *)
Definition downloadCSV (rows : list Row) : option Download :=
  match rows with
  | [] => None
  | _ :: _ =>
      Some {| blob_text := text rows;
              blob_type := "text/csv;charset=utf-8";
              download := "github_emails.csv" |}
  end.

(** *** Reading a CSV text back

    A reader for comma-separated records with quoted fields, in which a
    doubled quote stands for a quote and commas and line feeds are plain
    characters. *)

Inductive Mode := FieldStart | Plain | Quoted | QuoteSeen.

(** [field] and [record] are what was read of the current field and record,
    [records] the records completed so far. *)
Fixpoint read_go (mode : Mode) (field : string) (record : list string)
    (records : list (list string)) (s : string) : option (list (list string)) :=
  match s with
  | EmptyString =>
      match mode with
      | Quoted => None
      | _ => Some (records ++ [record ++ [field]])
      end
  | String c r =>
      match mode with
      | Quoted =>
          if Ascii.eqb c quote then read_go QuoteSeen field record records r
          else read_go Quoted (field +:+ String c "") record records r
      | QuoteSeen =>
          if Ascii.eqb c quote then
            read_go Quoted (field +:+ String quote "") record records r
          else if Ascii.eqb c comma then
            read_go FieldStart "" (record ++ [field]) records r
          else if Ascii.eqb c LF then
            read_go FieldStart "" [] (records ++ [record ++ [field]]) r
          else None
      | FieldStart | Plain =>
          if Ascii.eqb c quote then
            match mode with
            | FieldStart => read_go Quoted "" record records r
            | _ => None
            end
          else if Ascii.eqb c comma then
            read_go FieldStart "" (record ++ [field]) records r
          else if Ascii.eqb c LF then
            read_go FieldStart "" [] (records ++ [record ++ [field]]) r
          else read_go Plain (field +:+ String c "") record records r
      end
  end.

Definition read (s : string) : option (list (list string)) :=
  read_go FieldStart "" [] [] s.

(** The six fields of a row, as the export writes them. *)
Definition fields (r : Row) : list string :=
  [row_source r; row_kind r; row_login r; default "" (row_name r);
   row_profileUrl r; row_email r].

End Csv.

(** Two table rows; the name of the first holds a comma, a quote and a line
    feed, the second has neither name nor e-mail. *)
Definition tricky_rows : list Row :=
  [ {| row_source := "acme"; row_kind := "org"; row_login := "amy";
       row_name := Some (String "A" (String "," (String "034" (String "010" "y"))));
       row_profileUrl := "https://github.com/amy"; row_email := "a@y.org" |};
    {| row_source := "zed"; row_kind := "user"; row_login := "zed";
       row_name := None;
       row_profileUrl := "https://github.com/zed"; row_email := "" |} ].

(** ** More on reading a run *)

(** An answer that makes the member enumeration fail: a rejected request, a
    403, or a success response whose body does not parse.  [msg] is the
    message of the failure. *)
Inductive Aborts : FetchResult → string → Prop :=
| Aborts_rejected msg : Aborts (Rejected msg) msg
| Aborts_forbidden res :
    status res = 403%Z →
    Aborts (Fulfilled res) "Org members forbidden or rate limited (403)."
| Aborts_malformed res msg :
    ok res = true → body res = Malformed msg → Aborts (Fulfilled res) msg.

(** An answer that ends the member enumeration without a page: a status
    that is neither a success status nor 403, or a success response whose
    body is no array. *)
Inductive Breaks : FetchResult → Prop :=
| Breaks_status res :
    ok res = false → status res ≠ 403%Z → Breaks (Fulfilled res)
| Breaks_no_array res j :
    ok res = true → body res = Parsed j → (∀ data, j ≠ JArray data) →
    Breaks (Fulfilled res).

(** An answer to a commit search that makes [tryCommitEmail] fail, with the
    message of the failure: a rejected request, a 403, or a success response
    whose body does not parse. *)
Inductive Raises : FetchResult → string → Prop :=
| Raises_rejected msg : Raises (Rejected msg) msg
| Raises_forbidden res :
    status res = 403%Z →
    Raises (Fulfilled res)
      "GitHub API rate limit exceeded or forbidden (403). Add or rotate a token."
| Raises_malformed res msg :
    ok res = true → body res = Malformed msg → Raises (Fulfilled res) msg.

(** The names [handleRun] makes of the text of the box. *)
Definition parse_names (input : string) : list string :=
  List.filter JsString.truthy (JsString.trim <$> JsString.split input).

(** A string without comma and without line feed. *)
Fixpoint no_separator (s : string) : bool :=
  match s with
  | EmptyString => true
  | String c r => negb (JsString.is_separator c) && no_separator r
  end.

(** The non-empty logins of the items of member pages, in order. *)
Definition item_logins (data : list MemberItem) : list string :=
  omap (fun it => l ← item_login it; if JsString.truthy l then Some l else None) data.

(** The members listed on member pages: one for every item with a non-empty
    login, in order. *)
Definition listed_members (data : list MemberItem) : list OrgMember :=
  Build_OrgMember <$> item_logins data.

(** The pauses of a trace, in order. *)
Definition sleeps (t : list Event) : list nat :=
  omap (fun e => match e with EvSleep ms => Some ms | EvFetch _ => None end) t.

(** The two requests sent for each member of a list. *)
Definition member_requests (members : list OrgMember) : list Request :=
  m ← members; [GetUser (m_login m); SearchCommits (m_login m)].

(** ** Facts about [dedupe] *)

Section Dedupe.

Implicit Types (xs ys out prev : list string) (seen : gset string).

Lemma keep_new_ext prev prev' xs :
  (∀ x, x ∈ prev ↔ x ∈ prev') → keep_new prev xs = keep_new prev' xs.
Proof.
  revert prev prev'. induction xs as [|x r IH]; intros prev prev' E; simpl; [done|].
  assert (∀ y, y ∈ prev ++ [x] ↔ y ∈ prev' ++ [x]) as E'.
  { intros y. rewrite !elem_of_app. by rewrite E. }
  rewrite (IH _ _ E').
  destruct (decide (x ∈ prev)) as [i|n], (decide (x ∈ prev')) as [i'|n'];
    try done; exfalso; [apply n', E, i | apply n, E, i'].
Qed.

Lemma foldl_dedupe_step seen out xs :
  (∀ x, x ∈ seen ↔ x ∈ out) →
  (foldl dedupe_step (seen, out) xs).2 = out ++ keep_new out xs.
Proof.
  revert seen out. induction xs as [|x r IH]; intros seen out E; simpl.
  { by rewrite app_nil_r. }
  destruct (decide (x ∈ seen)) as [i|n], (decide (x ∈ out)) as [i'|n'];
    try (exfalso; first [apply n', E, i | apply n, E, i']).
  - rewrite (IH _ _ E). f_equal. apply keep_new_ext.
    intros y. rewrite elem_of_app, list_elem_of_singleton.
    split; [tauto | intros [?| ->]; done].
  - rewrite IH.
    + by rewrite <- app_assoc.
    + intros y. rewrite elem_of_union, elem_of_singleton, elem_of_app,
        list_elem_of_singleton, E. tauto.
Qed.

Lemma dedupe_keep_new xs : dedupe xs = keep_new [] xs.
Proof.
  unfold dedupe. rewrite foldl_dedupe_step; [done|].
  intros x. rewrite elem_of_empty, elem_of_nil. tauto.
Qed.

Lemma dedupe_nil : dedupe [] = [].
Proof. reflexivity. Qed.

Lemma dedupe_singleton x : dedupe [x] = [x].
Proof.
  rewrite dedupe_keep_new. simpl. destruct (decide (x ∈ [])) as [i|]; [|done].
  by apply elem_of_nil in i.
Qed.

Lemma omap_fmap_compose {A B C} (f : B → option C) (g : A → B) (l : list A) :
  omap f (g <$> l) = omap (f ∘ g) l.
Proof. induction l as [|a l IH]; csimpl; [done|]. by rewrite IH. Qed.

(** [keep_new] against the positional reading. *)
Lemma keep_new_positional prev xs :
  keep_new prev xs =
  omap (fun i => x ← xs !! i; if decide (x ∈ prev ++ take i xs) then None else Some x)
       (seq 0 (length xs)).
Proof.
  revert prev. induction xs as [|x r IH]; intros prev; [done|].
  cbn [keep_new length]. rewrite (IH (prev ++ [x])).
  cbn [seq]. rewrite <- (fmap_S_seq 0). csimpl.
  rewrite app_nil_r, omap_fmap_compose.
  assert (omap (λ i, y ← r !! i;
                     (if decide (y ∈ (prev ++ [x]) ++ take i r) then None else Some y))
               (seq 0 (length r))
          = omap ((λ i, y ← (x :: r) !! i;
                     (if decide (y ∈ prev ++ take i (x :: r)) then None else Some y)) ∘ S)
               (seq 0 (length r))) as ->.
  { apply list_omap_ext, Forall2_same_length_lookup. split; [done|].
    intros i a b Ha Hb. assert (a = b) as -> by congruence.
    simpl. by rewrite <- app_assoc. }
  by destruct (decide (x ∈ prev)).
Qed.

Lemma dedupe_eq_first_occurrences xs : dedupe xs = first_occurrences xs.
Proof. rewrite dedupe_keep_new. apply keep_new_positional. Qed.

Lemma elem_of_keep_new prev xs x :
  x ∈ keep_new prev xs ↔ x ∈ xs ∧ x ∉ prev.
Proof.
  revert prev. induction xs as [|y r IH]; intros prev; simpl.
  { rewrite elem_of_nil. tauto. }
  destruct (decide (y ∈ prev)) as [i|n].
  - rewrite IH, elem_of_cons, elem_of_app, list_elem_of_singleton.
    destruct (decide (x = y)) as [->|]; tauto.
  - rewrite !elem_of_cons, IH, elem_of_app, list_elem_of_singleton.
    destruct (decide (x = y)) as [->|]; tauto.
Qed.

Lemma NoDup_keep_new prev xs : NoDup (keep_new prev xs).
Proof.
  revert prev. induction xs as [|y r IH]; intros prev; simpl; [constructor|].
  destruct (decide (y ∈ prev)); [apply IH|].
  constructor; [|apply IH].
  rewrite elem_of_keep_new, elem_of_app, list_elem_of_singleton. tauto.
Qed.

Lemma keep_new_NoDup prev xs :
  NoDup xs → (∀ x, x ∈ xs → x ∉ prev) → keep_new prev xs = xs.
Proof.
  revert prev. induction xs as [|y r IH]; intros prev ND Hd; simpl; [done|].
  apply NoDup_cons in ND as [Hy ND].
  destruct (decide (y ∈ prev)) as [i|n].
  { exfalso. apply (Hd y); [left | done]. }
  f_equal. apply IH; [done|].
  intros x Hx. rewrite elem_of_app, list_elem_of_singleton.
  intros [Hp| ->]; [|done]. apply (Hd x); [by right | done].
Qed.

Lemma keep_new_sublist prev xs : sublist (keep_new prev xs) xs.
Proof.
  revert prev. induction xs as [|y r IH]; intros prev; simpl; [constructor|].
  destruct (decide (y ∈ prev)); [apply sublist_cons | apply sublist_skip]; apply IH.
Qed.

Lemma NoDup_dedupe xs : NoDup (dedupe xs).
Proof. rewrite dedupe_keep_new. apply NoDup_keep_new. Qed.

Lemma elem_of_dedupe xs x : x ∈ dedupe xs ↔ x ∈ xs.
Proof.
  rewrite dedupe_keep_new, elem_of_keep_new, elem_of_nil. tauto.
Qed.

Lemma dedupe_sublist xs : sublist (dedupe xs) xs.
Proof. rewrite dedupe_keep_new. apply keep_new_sublist. Qed.

Lemma dedupe_NoDup_id xs : NoDup xs → dedupe xs = xs.
Proof.
  intros ND. rewrite dedupe_keep_new. apply keep_new_NoDup; [done|].
  intros x _. apply not_elem_of_nil.
Qed.

Lemma dedupe_idempotent xs : dedupe (dedupe xs) = dedupe xs.
Proof. apply dedupe_NoDup_id, NoDup_dedupe. Qed.

(** Deduplicating a concatenation whose second part is already
    deduplicated gives the same as deduplicating the raw concatenation. *)
Lemma keep_new_keep_new prev xs : keep_new prev (keep_new prev xs) = keep_new prev xs.
Proof.
  apply keep_new_NoDup; [apply NoDup_keep_new|].
  intros x. rewrite elem_of_keep_new. tauto.
Qed.

Lemma keep_new_app prev xs ys :
  keep_new prev (xs ++ ys) = keep_new prev xs ++ keep_new (prev ++ xs) ys.
Proof.
  revert prev. induction xs as [|x r IH]; intros prev; simpl.
  { by rewrite app_nil_r. }
  rewrite IH, <- app_assoc. by destruct (decide (x ∈ prev)).
Qed.

Lemma keep_new_absorb prev prev' xs :
  (∀ x, x ∈ prev' → x ∈ prev) →
  keep_new prev (keep_new prev' xs) = keep_new prev xs.
Proof.
  revert prev prev'. induction xs as [|x r IH]; intros prev prev' Hsub; simpl; [done|].
  assert (∀ y, y ∈ prev' ++ [x] → y ∈ prev ++ [x]) as Hsub'.
  { intros y. rewrite !elem_of_app. intros [?|?]; [left; auto | by right]. }
  destruct (decide (x ∈ prev')) as [i'|n'].
  - destruct (decide (x ∈ prev)) as [i|n]; [|by destruct n; apply Hsub].
    rewrite <- (IH (prev ++ [x]) (prev' ++ [x]) Hsub').
    apply keep_new_ext. intros y. rewrite elem_of_app, list_elem_of_singleton.
    split; [by left | intros [?| ->]; done].
  - simpl. rewrite (IH (prev ++ [x]) (prev' ++ [x]) Hsub').
    by destruct (decide (x ∈ prev)).
Qed.

(** Deduplicating again after a deduplicated part was appended. *)
Lemma dedupe_app_dedupe xs ys : dedupe (xs ++ dedupe ys) = dedupe (xs ++ ys).
Proof.
  rewrite !dedupe_keep_new, !keep_new_app. f_equal. simpl.
  apply keep_new_absorb. intros x Hx. by apply elem_of_nil in Hx.
Qed.

(** A non-empty list stays non-empty, with the same head. *)
Lemma dedupe_cons x xs : ∃ ys, dedupe (x :: xs) = x :: ys.
Proof.
  rewrite dedupe_keep_new. simpl. destruct (decide (x ∈ [])) as [i|]; [|eauto].
  by apply elem_of_nil in i.
Qed.

End Dedupe.

(** ** Facts about the monad *)

Section MonadFacts.

Context {W A B : Type}.
Implicit Types (m : M W A) (k : A → M W B) (s : St W).

Lemma bind_ret m k s a s' : m s = (Ret a, s') → (x ← m; k x) s = k a s'.
Proof. intros H. unfold mbind, M_bind, bind. by rewrite H. Qed.

Lemma bind_mret a k s : (x ← ret a; k x) s = k a s.
Proof. reflexivity. Qed.

Lemma bind_throw m k s msg s' :
  m s = (Throw msg, s') → (x ← m; k x) s = (Throw msg, s').
Proof. intros H. unfold mbind, M_bind, bind. by rewrite H. Qed.

Lemma bind_diverge m k s s' :
  m s = (Diverge, s') → (x ← m; k x) s = (Diverge, s').
Proof. intros H. unfold mbind, M_bind, bind. by rewrite H. Qed.

Lemma catch_ret m v s a s' : m s = (Ret a, s') → catch m v s = (Ret a, s').
Proof. intros H. unfold catch. by rewrite H. Qed.

Lemma catch_throw m v s msg s' : m s = (Throw msg, s') → catch m v s = (Ret v, s').
Proof. intros H. unfold catch. by rewrite H. Qed.

Lemma catch_diverge m v s s' : m s = (Diverge, s') → catch m v s = (Diverge, s').
Proof. intros H. unfold catch. by rewrite H. Qed.

(** A caught computation does not fail. *)
Lemma catch_cases m v s :
  (∃ a s', catch m v s = (Ret a, s')) ∨ (∃ s', catch m v s = (Diverge, s')).
Proof.
  unfold catch. destruct (m s) as [[a|msg|] s']; [left|left|right]; eauto.
Qed.

End MonadFacts.

Section Helpers.

Context {W : Type} (github : Request → W → FetchResult * W).
Implicit Types (s : St W) (fr : FetchResult) (w : W).

Lemma ok_status res :
  ok res = true →
  (status res =? 422)%Z = false ∧ (status res =? 403)%Z = false
  ∧ (status res =? 404)%Z = false.
Proof.
  unfold ok. intros H. apply andb_true_iff in H as [H1 H2].
  apply Z.leb_le in H1, H2. repeat split; apply Z.eqb_neq; lia.
Qed.

Lemma fetch_run r s fr w' :
  github r (world s) = (fr, w') →
  fetch github r s =
    (match fr with Rejected msg => Throw msg | Fulfilled res => Ret res end,
     after s r w').
Proof. intros H. unfold fetch. rewrite H. by destruct fr. Qed.

Lemma commit_step_emails items emails authorName :
  (foldl commit_step (emails, authorName) items).1 = emails ++ author_emails items.
Proof.
  revert emails authorName. induction items as [|it items IH]; intros emails authorName.
  { simpl. by rewrite app_nil_r. }
  cbn [foldl]. unfold commit_step at 2. rewrite IH.
  unfold author_emails. csimpl.
  destruct (author_email it) as [e|]; csimpl; [|done].
  destruct (JsString.truthy e); csimpl; [|done]. by rewrite <- app_assoc.
Qed.

Lemma commit_step_name_found items emails n :
  JsString.truthy n = true →
  (foldl commit_step (emails, Some n) items).2 = Some n.
Proof.
  intros Hn. revert emails. induction items as [|it items IH]; intros emails; [done|].
  cbn [foldl]. unfold commit_step at 2. cbn [JsString.truthy_opt].
  rewrite Hn. cbn [negb andb]. apply IH.
Qed.

Lemma commit_step_name items emails :
  (foldl commit_step (emails, None) items).2 = first_author_name items.
Proof.
  revert emails. induction items as [|it items IH]; intros emails; [done|].
  cbn [foldl]. unfold commit_step at 2. cbn [JsString.truthy_opt negb andb].
  unfold first_author_name. csimpl.
  destruct (author_name it) as [n|]; csimpl.
  - destruct (JsString.truthy n) eqn:Hn; csimpl.
    + by apply commit_step_name_found.
    + apply IH.
  - apply IH.
Qed.

(** [tryCommitEmail(..).catch(() => null)]: one request, never a failure;
    [null] exactly when the answer carries no commit item. *)
Lemma tryCommitEmail_caught username s fr w' :
  github (SearchCommits username) (world s) = (fr, w') →
  catch (tryCommitEmail github username) None s =
    (Ret match search_items fr with
         | [] => None
         | items => Some {| ce_emails := dedupe (author_emails items);
                            ce_name := first_author_name items |}
         end,
     after s (SearchCommits username) w').
Proof.
  intros H. unfold catch, tryCommitEmail, mbind, M_bind, bind.
  rewrite (fetch_run _ _ _ _ H).
  destruct fr as [msg|res]; [done|]. unfold search_items.
  destruct (status res =? 422)%Z eqn:E1.
  { assert (ok res = false) as ->; [|done].
    destruct (ok res) eqn:Hok; [|done]. apply ok_status in Hok. intuition congruence. }
  destruct (status res =? 403)%Z eqn:E2.
  { assert (ok res = false) as ->; [|done].
    destruct (ok res) eqn:Hok; [|done]. apply ok_status in Hok. intuition congruence. }
  destruct (ok res); cbn [negb]; [|done].
  unfold json. destruct (body res) as [msg|[items|a|data|]]; try done.
  destruct items as [|it items]; [done|].
  pose proof (commit_step_emails (it :: items) [] None) as He.
  pose proof (commit_step_name (it :: items) []) as Hn.
  cbv beta iota delta [ret mret M_ret].
  destruct (foldl commit_step ([], None) (it :: items)) as [emails authorName].
  cbn [fst snd app] in He, Hn. by rewrite He, Hn.
Qed.

(** [checkIsOrg(..).catch(() => false)] *)
Lemma checkIsOrg_caught name s fr w' :
  github (GetUser name) (world s) = (fr, w') →
  catch (checkIsOrg github name) false s =
    (Ret (is_organization fr), after s (GetUser name) w').
Proof.
  intros H. unfold catch, checkIsOrg, mbind, M_bind, bind.
  rewrite (fetch_run _ _ _ _ H).
  destruct fr as [msg|res]; [done|]. unfold is_organization, account_of.
  destruct (ok res); cbn [negb]; [|done].
  unfold json. by destruct (body res) as [msg|[items|a|data|]].
Qed.

(** [getUserProfile(..).catch(() => null)]: [null] exactly when the lookup
    fails; the name and e-mail of the account document otherwise. *)
Lemma getUserProfile_caught username s fr w' :
  github (GetUser username) (world s) = (fr, w') →
  catch (getUserProfile github username) None s =
    (Ret (profile_of fr), after s (GetUser username) w').
Proof.
  intros H. unfold catch, getUserProfile, mbind, M_bind, bind.
  rewrite (fetch_run _ _ _ _ H).
  destruct fr as [msg|res]; [done|]. unfold profile_of, account_of, lookup_failed.
  destruct (ok res); cbn [negb]; [|done].
  unfold json. by destruct (body res) as [msg|[items|a|data|]].
Qed.

End Helpers.

(** ** The resolver *)

Section Resolver.

Context {W : Type} (github : Request → W → FetchResult * W).
Implicit Types (s : St W) (fr : FetchResult) (w : W) (m : OrgMember).

Lemma lookup_failed_account fr : lookup_failed fr = true → account_of fr = None.
Proof.
  destruct fr as [msg|res]; [done|]. unfold lookup_failed, account_of.
  destruct (ok res); [|done]. by destruct (body res).
Qed.

Lemma profile_of_name fr : profile_of fr ≫= p_name = account_of fr ≫= account_name.
Proof.
  unfold profile_of. destruct (lookup_failed fr) eqn:Hf; [|reflexivity].
  by rewrite (lookup_failed_account _ Hf).
Qed.

Lemma profile_of_email fr : profileEmail (profile_of fr) = public_email fr.
Proof.
  unfold public_email, profileEmail, profile_of.
  destruct (lookup_failed fr) eqn:Hf; [|reflexivity].
  by rewrite (lookup_failed_account _ Hf).
Qed.

(** The first step of the callback: the profile lookup, never a failure. *)
Lemma memberProfile_run m s fr1 w1 :
  github (GetUser (m_login m)) (world s) = (fr1, w1) →
  memberProfile github m s = (Ret (profile_of fr1), after s (GetUser (m_login m)) w1).
Proof. apply getUserProfile_caught. Qed.

(** The second step: the commit search, and a row whatever the two answers
    are. *)
Lemma memberRow_run m fr1 s fr2 w2 :
  github (SearchCommits (m_login m)) (world s) = (fr2, w2) →
  memberRow github m (profile_of fr1) s =
    (Ret (member_row m fr1 fr2), after s (SearchCommits (m_login m)) w2).
Proof.
  intros H2. unfold memberRow.
  rewrite (bind_ret _ _ _ _ _ (tryCommitEmail_caught github _ _ _ _ H2)).
  rewrite profile_of_name, profile_of_email.
  unfold mret, M_ret, ret, member_row. do 3 f_equal.
  destruct (search_items fr2) as [|it items]; [reflexivity|].
  cbn [from_option ce_emails]. apply dedupe_app_dedupe.
Qed.

Lemma Enriched_login m row : Enriched github m row → u_login row = m_login m.
Proof. by intros (fr1 & fr2 & _ & _ & ->). Qed.

Lemma Enriched_NoDup m row : Enriched github m row → NoDup (u_emails row).
Proof. intros (fr1 & fr2 & _ & _ & ->). apply NoDup_dedupe. Qed.

Lemma Enriched_rows_NoDup members rows :
  Forall2 (Enriched github) members rows → Forall (fun u => NoDup (u_emails u)) rows.
Proof.
  induction 1 as [|m row members rows Hrow _ IH]; constructor; [|done].
  by apply (Enriched_NoDup m).
Qed.

Lemma Enriched_rows_login members rows :
  Forall2 (Enriched github) members rows → u_login <$> rows = m_login <$> members.
Proof.
  induction 1 as [|m row members rows Hrow _ IH]; [done|].
  cbn [fmap list_fmap]. f_equal; [by apply Enriched_login | done].
Qed.

Lemma mapM_cons {A B} (f : A → M W B) x l :
  mapM f (x :: l) = (y ← f x; k ← mapM f l; mret (y :: k)).
Proof. reflexivity. Qed.

Lemma mapM_app_run {A B} (f : A → M W B) l1 l2 s r1 s1 r2 s2 :
  mapM f l1 s = (Ret r1, s1) →
  mapM f l2 s1 = (Ret r2, s2) →
  mapM f (l1 ++ l2) s = (Ret (r1 ++ r2), s2).
Proof.
  revert s r1. induction l1 as [|x l1 IH]; intros s r1 H1 H2.
  { inversion H1. by subst. }
  cbn [app] in *. rewrite mapM_cons in H1 |- *. unfold mbind, M_bind, bind in *.
  destruct (f x s) as [[y|msg|] sa]; try done.
  destruct (mapM f l1 sa) as [[k|msg|] sb] eqn:Hk; try done.
  inversion H1. subst. by rewrite (IH _ _ Hk H2).
Qed.

(** The profile lookups of a chunk: one answer per member, in member
    order. *)
Lemma memberProfiles_run (chunk : list OrgMember) s :
  ∃ frs s1,
    mapM (memberProfile github) chunk s = (Ret (profile_of <$> frs), s1)
    ∧ Forall2 (fun m fr => Answers github (GetUser (m_login m)) fr) chunk frs.
Proof.
  revert s. induction chunk as [|m chunk IH]; intros s.
  { exists [], s. split; [done | constructor]. }
  destruct (github (GetUser (m_login m)) (world s)) as [fr1 w1] eqn:H1.
  destruct (IH (after s (GetUser (m_login m)) w1)) as (frs & s1 & Hrest & HF).
  exists (fr1 :: frs), s1. split.
  - rewrite mapM_cons, (bind_ret _ _ _ _ _ (memberProfile_run _ _ _ _ H1)).
    by rewrite (bind_ret _ _ _ _ _ Hrest).
  - constructor; [by exists (world s), w1 | done].
Qed.

(** The callbacks of a chunk resumed with their profiles: one enriched row
    per member, in member order. *)
Lemma memberRows_run (chunk : list OrgMember) frs s :
  Forall2 (fun m fr => Answers github (GetUser (m_login m)) fr) chunk frs →
  ∃ rows s',
    mapM (fun mp => memberRow github mp.1 mp.2) (zip chunk (profile_of <$> frs)) s =
      (Ret rows, s')
    ∧ Forall2 (Enriched github) chunk rows.
Proof.
  intros HF. revert s. induction HF as [|m fr1 chunk frs Hm _ IH]; intros s.
  { exists [], s. split; [done | constructor]. }
  destruct (github (SearchCommits (m_login m)) (world s)) as [fr2 w2] eqn:H2.
  destruct (IH (after s (SearchCommits (m_login m)) w2)) as (rows & s' & Hrest & HF').
  exists (member_row m fr1 fr2 :: rows), s'. split.
  - cbn [fmap list_fmap zip_with]. rewrite mapM_cons. cbn [fst snd].
    rewrite (bind_ret _ _ _ _ _ (memberRow_run _ _ _ _ _ H2)).
    by rewrite (bind_ret _ _ _ _ _ Hrest).
  - constructor; [|done]. exists fr1, fr2. split; [done|].
    split; [by exists (world s), w2 | done].
Qed.

(** [Promise.all] over the callbacks of a chunk settles with one enriched
    row per member, in member order. *)
Lemma enrich_chunk_run (chunk : list OrgMember) s :
  ∃ rows s',
    enrich_chunk github chunk s = (Ret rows, s')
    ∧ Forall2 (Enriched github) chunk rows.
Proof.
  destruct (memberProfiles_run chunk s) as (frs & s1 & Hprofiles & HF).
  destruct (memberRows_run chunk frs s1 HF) as (rows & s' & Hrows & HF').
  exists rows, s'. split; [|done].
  unfold enrich_chunk. by rewrite (bind_ret _ _ _ _ _ Hprofiles).
Qed.

(** The batched loop settles with one row per remaining member. *)
Lemma enrich_batches_run members i users s :
  ∃ rows s',
    enrich_batches github members i users s = (Ret (users ++ rows), s')
    ∧ Forall2 (Enriched github) (drop i members) rows.
Proof.
  remember (length members - i) as n eqn:Hn.
  revert i users s Hn. induction n as [n IH] using lt_wf_ind. intros i users s Hn.
  rewrite enrich_batches_equation_1. unfold enrich_batches_unfold_clause_1.
  destruct (decide (i < length members)) as [Hlt|Hge].
  - destruct (enrich_chunk_run (slice i (i + batchSize) members) s)
      as (chunkRows & s1 & Hchunk & HF1).
    rewrite (bind_ret _ _ _ _ _ Hchunk).
    unfold mbind at 1, M_bind at 1, bind at 1, sleep at 1.
    destruct (IH (length members - (i + batchSize))
                ltac:(unfold batchSize; lia)
                (i + batchSize) (users ++ chunkRows)
                (mkSt (world s1) (trace s1 ++ [EvSleep 250])) eq_refl)
      as (rows & s' & Hrest & HF2).
    exists (chunkRows ++ rows), s'. split.
    + by rewrite app_assoc.
    + rewrite <- (take_drop batchSize (drop i members)). apply Forall2_app.
      * unfold slice in HF1. by replace (i + batchSize - i) with batchSize in HF1 by lia.
      * by rewrite drop_drop.
  - exists [], s. split.
    + by rewrite app_nil_r.
    + rewrite drop_ge by lia. constructor.
Qed.

(** The branch for a name that is not an organization. *)
Lemma resolveProfile_run name s fr w' :
  github (GetUser name) (world s) = (fr, w') →
  resolveProfile github name s =
    (Ret {| r_input := name;
            r_type := type_user;
            r_users := [ {| u_login := name;
                            u_name := account_of fr ≫= account_name;
                            u_profileUrl := profileUrl name;
                            u_emails := dedupe (public_email fr) |} ] |},
     after s (GetUser name) w').
Proof.
  intros H. unfold resolveProfile.
  rewrite (bind_ret _ _ _ _ _ (getUserProfile_caught github _ _ _ _ H)).
  by rewrite profile_of_name, profile_of_email.
Qed.

(** The org branch does not fail: it returns an organization with one
    enriched row per enumerated member, unless the enumeration runs out of
    fuel. *)
Lemma resolveOrg_cases fuel name s :
  (∃ members s1 r s',
      catch (getOrgMembers github fuel name) [] s = (Ret members, s1)
      ∧ resolveOrg github fuel name s = (Ret r, s')
      ∧ r_input r = name ∧ r_type r = type_org
      ∧ Forall2 (Enriched github) members (r_users r))
  ∨ (∃ s', getOrgMembers github fuel name s = (Diverge, s')
           ∧ resolveOrg github fuel name s = (Diverge, s')).
Proof.
  unfold resolveOrg.
  destruct (getOrgMembers github fuel name s) as [[members|msg|] s1] eqn:Hm.
  - left. destruct (enrich_batches_run members 0 [] s1) as (rows & s' & Hrows & HF).
    exists members, s1, {| r_input := name; r_type := type_org; r_users := rows |}, s'.
    rewrite (bind_ret _ _ _ _ _ (catch_ret _ _ _ _ _ Hm)).
    rewrite (bind_ret _ _ _ _ _ Hrows). rewrite (catch_ret _ _ _ _ _ Hm). done.
  - left. destruct (enrich_batches_run [] 0 [] s1) as (rows & s' & Hrows & HF).
    exists [], s1, {| r_input := name; r_type := type_org; r_users := rows |}, s'.
    rewrite (bind_ret _ _ _ _ _ (catch_throw _ _ _ _ _ Hm)).
    rewrite (bind_ret _ _ _ _ _ Hrows). rewrite (catch_throw _ _ _ _ _ Hm). done.
  - right. exists s1. split; [done|].
    by rewrite (bind_diverge _ _ _ _ (catch_diverge _ _ _ _ Hm)).
Qed.

(** A commit search with at least one non-empty author e-mail settles the
    name as an individual, with no further request. *)
Lemma resolveName_hit fuel name s fr w1 :
  github (SearchCommits name) (world s) = (fr, w1) →
  author_emails (search_items fr) ≠ [] →
  resolveName github fuel name s =
    (Ret (user_result name (first_author_name (search_items fr))
            (dedupe (author_emails (search_items fr)))),
     after s (SearchCommits name) w1).
Proof.
  intros H Hne. unfold resolveName.
  rewrite (bind_ret _ _ _ _ _ (tryCommitEmail_caught github _ _ _ _ H)).
  destruct (search_items fr) as [|it items]; [done|].
  cbn [ce_emails ce_name].
  destruct (author_emails (it :: items)) as [|e es] eqn:He; [done|].
  destruct (dedupe_cons e es) as [ys Hys].
  rewrite dedupe_idempotent, Hys. reflexivity.
Qed.

(** Otherwise the organization check decides between the two branches. *)
Lemma resolveName_miss fuel name s fr w1 fr2 w2 :
  github (SearchCommits name) (world s) = (fr, w1) →
  author_emails (search_items fr) = [] →
  github (GetUser name) w1 = (fr2, w2) →
  resolveName github fuel name s =
    (if is_organization fr2 then resolveOrg github fuel name
     else resolveProfile github name)
      (after (after s (SearchCommits name) w1) (GetUser name) w2).
Proof.
  intros H He H2. unfold resolveName.
  rewrite (bind_ret _ _ _ _ _ (tryCommitEmail_caught github _ _ _ _ H)).
  pose proof (checkIsOrg_caught github name (after s (SearchCommits name) w1) _ _ H2)
    as Hc.
  destruct (search_items fr) as [|it items].
  - rewrite (bind_ret _ _ _ _ _ Hc). by destruct (is_organization fr2).
  - cbn [ce_emails]. rewrite He. cbn [dedupe foldl snd length Nat.ltb Nat.leb].
    rewrite (bind_ret _ _ _ _ _ Hc). by destruct (is_organization fr2).
Qed.

(** [resolveName] does not fail: it returns a result for the name unless
    the member enumeration runs out of fuel. *)
Lemma resolveName_cases fuel name s :
  (∃ r s', resolveName github fuel name s = (Ret r, s')
           ∧ r_input r = name
           ∧ Forall (fun u => NoDup (u_emails u)) (r_users r))
  ∨ (∃ s', resolveName github fuel name s = (Diverge, s')).
Proof.
  destruct (github (SearchCommits name) (world s)) as [fr w1] eqn:H.
  destruct (decide (author_emails (search_items fr) = [])) as [He|Hne].
  - destruct (github (GetUser name) w1) as [fr2 w2] eqn:H2.
    rewrite (resolveName_miss _ _ _ _ _ _ _ H He H2).
    set (s2 := after (after s (SearchCommits name) w1) (GetUser name) w2).
    destruct (is_organization fr2).
    + destruct (resolveOrg_cases fuel name s2)
        as [(members & s3 & r & s' & _ & Hr & Hin & _ & HF)|(s' & _ & Hd)].
      * left. exists r, s'. repeat split; [done..|].
        by apply (Enriched_rows_NoDup members).
      * right. eauto.
    + destruct (github (GetUser name) (world s2)) as [fr3 w3] eqn:H3.
      left. rewrite (resolveProfile_run _ _ _ _ H3). eexists _, _.
      repeat split. repeat constructor. apply NoDup_dedupe.
  - left. rewrite (resolveName_hit _ _ _ _ _ H Hne). eexists _, _.
    repeat split. repeat constructor. apply NoDup_dedupe.
Qed.

End Resolver.

(** ** Traces only grow *)

Section Appends.

Context {W : Type} (github : Request → W → FetchResult * W).

Lemma appends_ret {A} (a : A) : appends (W:=W) (mret a).
Proof. intros s o s' [= <- <-]. exists []. by rewrite app_nil_r. Qed.

Lemma appends_throw {A} msg : appends (W:=W) (A:=A) (throw msg).
Proof. intros s o s' [= <- <-]. exists []. by rewrite app_nil_r. Qed.

Lemma appends_diverge {A} : appends (W:=W) (A:=A) diverge.
Proof. intros s o s' [= <- <-]. exists []. by rewrite app_nil_r. Qed.

Lemma appends_sleep ms : appends (W:=W) (sleep ms).
Proof. intros s o s' [= <- <-]. by exists [EvSleep ms]. Qed.

Lemma appends_fetch r : appends (fetch github r).
Proof.
  intros s o s'. unfold fetch. destruct (github r (world s)) as [[msg|res] w'];
    intros [= <- <-]; by exists [EvFetch r].
Qed.

Lemma appends_json res : appends (W:=W) (json res).
Proof. unfold json. destruct (body res); [apply appends_throw | apply appends_ret]. Qed.

Lemma appends_bind {A B} (m : M W A) (k : A → M W B) :
  appends m → (∀ a, appends (k a)) → appends (x ← m; k x).
Proof.
  intros Hm Hk s o s'. unfold mbind, M_bind, bind.
  destruct (m s) as [[a|msg|] s1] eqn:E; destruct (Hm _ _ _ E) as [evs1 H1].
  - intros Hka. destruct (Hk _ _ _ _ Hka) as [evs2 H2].
    exists (evs1 ++ evs2). by rewrite H2, H1, app_assoc.
  - intros [= <- <-]. eauto.
  - intros [= <- <-]. eauto.
Qed.

Lemma appends_catch {A} (m : M W A) v : appends m → appends (catch m v).
Proof.
  intros Hm s o s'. unfold catch.
  destruct (m s) as [[a|msg|] s1] eqn:E; destruct (Hm _ _ _ E) as [evs1 H1];
    intros [= <- <-]; eauto.
Qed.

Lemma appends_try_catch {A} (m : M W A) h :
  appends m → (∀ msg, appends (h msg)) → appends (try_catch m h).
Proof.
  intros Hm Hh s o s'. unfold try_catch.
  destruct (m s) as [[a|msg|] s1] eqn:E; destruct (Hm _ _ _ E) as [evs1 H1].
  - intros [= <- <-]. eauto.
  - intros Hhm. destruct (Hh _ _ _ _ Hhm) as [evs2 H2].
    exists (evs1 ++ evs2). by rewrite H2, H1, app_assoc.
  - intros [= <- <-]. eauto.
Qed.

Ltac appends_step :=
  first
    [ apply appends_ret | apply appends_throw | apply appends_diverge
    | apply appends_sleep | apply appends_fetch | apply appends_json
    | apply appends_catch
    | apply appends_bind; [|intros ?]
    | match goal with
      | |- appends (if ?b then _ else _) => destruct b
      | |- appends (match ?x with _ => _ end) => destruct x
      | |- appends (let '(_, _) := ?x in _) => destruct x
      end ].

Lemma appends_tryCommitEmail username : appends (tryCommitEmail github username).
Proof. unfold tryCommitEmail. repeat appends_step. Qed.

Lemma appends_checkIsOrg name : appends (checkIsOrg github name).
Proof. unfold checkIsOrg. repeat appends_step. Qed.

Lemma appends_getUserProfile username : appends (getUserProfile github username).
Proof. unfold getUserProfile. repeat appends_step. Qed.

Lemma appends_getOrgMembers_loop fuel org page members :
  appends (getOrgMembers_loop github fuel org page members).
Proof.
  revert page members. induction fuel as [|fuel IH]; intros page members; simpl.
  { apply appends_diverge. }
  repeat first [apply IH | appends_step].
Qed.

Lemma appends_memberProfile m : appends (memberProfile github m).
Proof. unfold memberProfile. repeat first [apply appends_getUserProfile | appends_step]. Qed.

Lemma appends_memberRow m profile : appends (memberRow github m profile).
Proof. unfold memberRow. repeat first [apply appends_tryCommitEmail | appends_step]. Qed.

Lemma appends_mapM {A B} (f : A → M W B) (l : list A) :
  (∀ x, appends (f x)) → appends (mapM f l).
Proof.
  intros Hf. induction l as [|x l IH]; [apply appends_ret|].
  apply appends_bind; [apply Hf|]. intros y.
  apply appends_bind; [apply IH|]. intros k. apply appends_ret.
Qed.

Lemma appends_enrich_chunk chunk : appends (enrich_chunk github chunk).
Proof.
  unfold enrich_chunk. apply appends_bind.
  - apply appends_mapM, appends_memberProfile.
  - intros profiles. apply appends_mapM. intros mp. apply appends_memberRow.
Qed.

Lemma appends_enrich_batches members i users :
  appends (enrich_batches github members i users).
Proof.
  remember (length members - i) as n eqn:Hn.
  revert i users Hn. induction n as [n IH] using lt_wf_ind. intros i users Hn.
  rewrite enrich_batches_equation_1. unfold enrich_batches_unfold_clause_1.
  destruct (decide (i < length members)) as [Hlt|Hge]; [|apply appends_ret].
  apply appends_bind; [apply appends_enrich_chunk|].
  intros chunkResults. apply appends_bind; [apply appends_sleep|]. intros _.
  apply (IH (length members - (i + batchSize))); [unfold batchSize; lia | done].
Qed.

Lemma appends_resolveProfile name : appends (resolveProfile github name).
Proof.
  unfold resolveProfile. repeat first [apply appends_getUserProfile | appends_step].
Qed.

Lemma appends_resolveOrg fuel name : appends (resolveOrg github fuel name).
Proof.
  unfold resolveOrg, getOrgMembers.
  repeat first [apply appends_getOrgMembers_loop | apply appends_enrich_batches
               | appends_step].
Qed.

Lemma appends_resolveName fuel name : appends (resolveName github fuel name).
Proof.
  unfold resolveName.
  repeat first [apply appends_tryCommitEmail | apply appends_checkIsOrg
               | apply appends_resolveProfile | apply appends_resolveOrg
               | appends_step].
Qed.

Lemma appends_resolve_each fuel raw results :
  appends (resolve_each github fuel raw results).
Proof.
  revert results. induction raw as [|name raw IH]; intros results; simpl.
  { apply appends_ret. }
  repeat first [apply appends_resolveName | apply IH | appends_step].
Qed.

End Appends.

(** ** The handler *)

Section Handler.

Context {W : Type} (github : Request → W → FetchResult * W).
Implicit Types (s : St W).

(** The first request for a name is its commit search; when that search
    brings no e-mail the second is the user lookup of the organization
    check. *)
Lemma resolveName_requests fuel name s o s' fr w1 :
  github (SearchCommits name) (world s) = (fr, w1) →
  resolveName github fuel name s = (o, s') →
  ∃ evs, trace s' = trace s ++ EvFetch (SearchCommits name) :: evs
         ∧ (author_emails (search_items fr) = [] →
            ∃ evs', evs = EvFetch (GetUser name) :: evs').
Proof.
  intros H Hrun.
  destruct (decide (author_emails (search_items fr) = [])) as [He|Hne].
  - destruct (github (GetUser name) w1) as [fr2 w2] eqn:H2.
    rewrite (resolveName_miss _ _ _ _ _ _ _ _ H He H2) in Hrun.
    assert (appends (if is_organization fr2 then resolveOrg github fuel name
                     else resolveProfile github name)) as Happ.
    { destruct (is_organization fr2);
        [apply appends_resolveOrg | apply appends_resolveProfile]. }
    destruct (Happ _ _ _ Hrun) as [evs Hevs]. cbn [after trace] in Hevs.
    exists (EvFetch (GetUser name) :: evs). split; [|eauto].
    by rewrite Hevs, <- !app_assoc.
  - rewrite (resolveName_hit _ _ _ _ _ _ H Hne) in Hrun. inversion Hrun.
    exists []. split; [done | intros; done].
Qed.

(** The loop over the names does not fail.  Unless it runs out of fuel it
    returns one result per name, in order, and has sent the commit search
    of every name. *)
Lemma resolve_each_cases fuel raw results s :
  (∃ rs s' evs,
      resolve_each github fuel raw results s = (Ret (results ++ rs), s')
      ∧ r_input <$> rs = raw
      ∧ emails_distinct rs
      ∧ trace s' = trace s ++ evs
      ∧ ∀ name, name ∈ raw → SearchCommits name ∈ fetches evs)
  ∨ (∃ s', resolve_each github fuel raw results s = (Diverge, s')).
Proof.
  revert results s. induction raw as [|name raw IH]; intros results s.
  { left. exists [], s, []. rewrite !app_nil_r. repeat split; try done.
    - constructor.
    - intros name Hn. by apply elem_of_nil in Hn. }
  cbn [resolve_each].
  destruct (resolveName_cases github fuel name s)
    as [(r & s1 & Hr & Hin & Hnd)|(s' & Hd)].
  2:{ right. exists s'. by rewrite (bind_diverge _ _ _ _ Hd). }
  rewrite (bind_ret _ _ _ _ _ Hr).
  unfold mbind at 1, M_bind at 1, bind at 1, sleep at 1.
  destruct (github (SearchCommits name) (world s)) as [fr w1] eqn:H.
  destruct (resolveName_requests _ _ _ _ _ _ _ H Hr) as (evs1 & Hevs1 & _).
  destruct (IH (results ++ [r]) (mkSt (world s1) (trace s1 ++ [EvSleep 150])))
    as [(rs & s' & evs2 & Hrs & Hins & Hnds & Hevs2 & Hreq)|(s' & Hd)].
  2:{ right. eauto. }
  left. exists (r :: rs), s', (EvFetch (SearchCommits name) :: evs1 ++ EvSleep 150 :: evs2).
  repeat split.
  - rewrite Hrs. by rewrite <- app_assoc.
  - cbn [fmap list_fmap]. by rewrite Hin, Hins.
  - by constructor.
  - rewrite Hevs2. cbn [trace]. rewrite Hevs1, <- !app_assoc. done.
  - intros n Hn. apply elem_of_cons in Hn as [->|Hn].
    + unfold fetches. csimpl. left.
    + unfold fetches. csimpl. right. rewrite omap_app. apply elem_of_app. right.
      csimpl. by apply Hreq.
Qed.

Lemma POST_cases fuel inputs s :
  (∃ results s' evs,
      POST github fuel (GoodBody inputs) s =
        (Ret {| api_status := 200; api_body := ApiOk results |}, s')
      ∧ r_input <$> results = raw_names inputs
      ∧ emails_distinct results
      ∧ trace s' = trace s ++ evs
      ∧ ∀ name, name ∈ raw_names inputs → SearchCommits name ∈ fetches evs)
  ∨ (∃ s', POST github fuel (GoodBody inputs) s = (Diverge, s')).
Proof.
  unfold POST, try_catch.
  rewrite (bind_ret _ _ s inputs s eq_refl).
  destruct (resolve_each_cases fuel (raw_names inputs) [] s)
    as [(rs & s' & evs & Hrs & Hin & Hnd & Hevs & Hreq)|(s' & Hd)].
  - left. exists rs, s', evs. rewrite (bind_ret _ _ _ _ _ Hrs). done.
  - right. exists s'. by rewrite (bind_diverge _ _ _ _ Hd).
Qed.

Lemma resolve_each_cons fuel name raw results s :
  resolve_each github fuel (name :: raw) results s =
    match resolveName github fuel name s with
    | (Ret r, s1) =>
        resolve_each github fuel raw (results ++ [r])
          (mkSt (world s1) (trace s1 ++ [EvSleep 150]))
    | (Throw msg, s1) => (Throw msg, s1)
    | (Diverge, s1) => (Diverge, s1)
    end.
Proof. reflexivity. Qed.

Lemma POST_unfold fuel inputs s :
  POST github fuel (GoodBody inputs) s =
    match resolve_each github fuel (raw_names inputs) [] s with
    | (Ret results, s') =>
        (Ret {| api_status := 200; api_body := ApiOk results |}, s')
    | (Throw msg, s') =>
        (Ret {| api_status := 500;
                api_body := ApiError (JsString.or_else (Some msg) "Unknown error") |}, s')
    | (Diverge, s') => (Diverge, s')
    end.
Proof.
  unfold POST, try_catch, mbind, M_bind, bind, mret, M_ret, ret.
  by destruct (resolve_each github fuel (raw_names inputs) [] s) as [[results|msg|] s'].
Qed.

(** A body that cannot be read is answered with a 500. *)
Lemma POST_bad_body fuel msg s :
  POST github fuel (BadBody msg) s =
    (Ret {| api_status := 500;
            api_body := ApiError (JsString.or_else (Some msg) "Unknown error") |}, s).
Proof. reflexivity. Qed.

End Handler.

(** ** Member enumeration *)

Section Members.

Context {W : Type} (github : Request → W → FetchResult * W).
Implicit Types (s : St W) (w : W).

Lemma fetch_fulfilled r s res w' :
  github r (world s) = (Fulfilled res, w') → fetch github r s = (Ret res, after s r w').
Proof. intros H. by rewrite (fetch_run _ _ _ _ _ H). Qed.

Lemma push_logins_app members d1 d2 :
  push_logins members (d1 ++ d2) = push_logins (push_logins members d1) d2.
Proof. unfold push_logins. by rewrite foldl_app. Qed.

Lemma fetches_page_events org p n :
  fetches (page_events org p n) = OrgMembers org perPage <$> seq p (S n).
Proof.
  revert p. induction n as [|n IH]; intros p; [done|].
  cbn [page_events]. unfold fetches in *. csimpl. rewrite IH.
  by rewrite Nat.add_1_r.
Qed.

(** The loop entered at page [p] with [members] collected reads the full
    pages and the last one, adds their logins and stops. *)
Lemma getOrgMembers_loop_run org w p pages last w' :
  Serves github org w p pages last w' →
  ∀ fuel members tail t,
    Forall (fun data => perPage ≤ length data) pages →
    FinalPage last tail →
    length pages < fuel →
    getOrgMembers_loop github fuel org p members (mkSt w t) =
      (Ret (push_logins members (concat pages ++ tail)),
       mkSt w' (t ++ page_events org p (length pages))).
Proof.
  induction 1 as [w p last w' Hlast | w p res data w1 pages last w' Hpage Hok Hbody _ IH];
    intros fuel members tail t Hfull Hfinal Hfuel.
  - destruct fuel as [|fuel]; [cbn [length] in Hfuel; lia|].
    cbn [getOrgMembers_loop concat app length page_events].
    destruct Hfinal as [res H404 | res data Hok Hbody Hshort].
    + rewrite (bind_ret _ _ _ _ _ (fetch_fulfilled _ (mkSt w t) _ _ Hlast)).
      rewrite H404. reflexivity.
    + rewrite (bind_ret _ _ _ _ _ (fetch_fulfilled _ (mkSt w t) _ _ Hlast)).
      destruct (ok_status _ Hok) as (_ & -> & ->). rewrite Hok. cbn [negb].
      unfold json. rewrite Hbody.
      rewrite bind_mret.
      destruct data as [|m data]; [reflexivity|].
      apply Nat.ltb_lt in Hshort. rewrite Hshort. reflexivity.
  - destruct fuel as [|fuel]; [cbn [length] in Hfuel; lia|].
    apply Forall_cons in Hfull as [Hdata Hfull].
    cbn [getOrgMembers_loop length page_events].
    rewrite (bind_ret _ _ _ _ _ (fetch_fulfilled _ (mkSt w t) _ _ Hpage)).
    destruct (ok_status _ Hok) as (_ & -> & ->). rewrite Hok. cbn [negb].
    unfold json. rewrite Hbody.
    rewrite bind_mret.
    destruct data as [|m data]; [unfold perPage in Hdata; cbn [length] in Hdata; lia|].
    apply Nat.ltb_ge in Hdata. rewrite Hdata.
    unfold mbind at 1, M_bind at 1, bind at 1, sleep at 1. cbn [after world trace].
    assert (length pages < fuel) as Hfuel' by (cbn [length] in Hfuel; lia).
    rewrite (IH fuel (push_logins members (m :: data)) tail _ Hfull Hfinal Hfuel').
    change (concat ((m :: data) :: pages)) with ((m :: data) ++ concat pages).
    rewrite <- (app_assoc (m :: data)), (push_logins_app members (m :: data)).
    rewrite <- !app_assoc. reflexivity.
Qed.

(** One turn of the enumeration loop on a full page. *)
Lemma getOrgMembers_loop_full fuel org page members s res data w1 :
  github (OrgMembers org perPage page) (world s) = (Fulfilled res, w1) →
  ok res = true → body res = Parsed (JArray data) → perPage ≤ length data →
  getOrgMembers_loop github (S fuel) org page members s =
    getOrgMembers_loop github fuel org (page + 1) (push_logins members data)
      (mkSt w1 (trace s ++ [EvFetch (OrgMembers org perPage page); EvSleep 120])).
Proof.
  intros Hpage Hok Hbody Hdata. cbn [getOrgMembers_loop].
  rewrite (bind_ret _ _ _ _ _ (fetch_fulfilled _ _ _ _ Hpage)).
  destruct (ok_status _ Hok) as (_ & -> & ->). rewrite Hok. cbn [negb].
  unfold json. rewrite Hbody, bind_mret.
  destruct data as [|m data]; [unfold perPage in Hdata; cbn [length] in Hdata; lia|].
  apply Nat.ltb_ge in Hdata. rewrite Hdata.
  unfold mbind at 1, M_bind at 1, bind at 1, sleep at 1. cbn [after world trace].
  by rewrite <- app_assoc.
Qed.

(** The enumeration over full pages, whatever the last answer makes of the
    members collected. *)
Lemma getOrgMembers_loop_pages org w p pages last w'
    (final : list OrgMember → Outcome (list OrgMember)) :
  Serves github org w p pages last w' →
  (∀ fuel page members s,
      github (OrgMembers org perPage page) (world s) = (last, w') →
      getOrgMembers_loop github (S fuel) org page members s =
        (final members, after s (OrgMembers org perPage page) w')) →
  ∀ fuel members t,
    Forall (fun data => perPage ≤ length data) pages →
    length pages < fuel →
    getOrgMembers_loop github fuel org p members (mkSt w t) =
      (final (push_logins members (concat pages)),
       mkSt w' (t ++ page_events org p (length pages))).
Proof.
  intros Hserves Hlast.
  induction Hserves as [w p last w' Hl | w p res data w1 pages last w' Hpage Hok Hbody _ IH];
    intros fuel members t Hfull Hfuel.
  - destruct fuel as [|fuel]; [cbn [length] in Hfuel; lia|].
    by rewrite (Hlast fuel p members (mkSt w t) Hl).
  - destruct fuel as [|fuel]; [cbn [length] in Hfuel; lia|].
    apply Forall_cons in Hfull as [Hdata Hfull].
    rewrite (getOrgMembers_loop_full fuel org p members (mkSt w t) res data w1
               Hpage Hok Hbody Hdata).
    assert (length pages < fuel) as Hfuel' by (cbn [length] in Hfuel; lia).
    rewrite (IH Hlast fuel _ _ Hfull Hfuel'). cbn [trace concat length page_events].
    rewrite push_logins_app, <- !app_assoc. reflexivity.
Qed.

(** The fold over a page pushes the members listed on it. *)
Lemma push_logins_listed members data :
  push_logins members data = members ++ listed_members data.
Proof.
  unfold push_logins, listed_members, item_logins. revert members.
  induction data as [|it data IH]; intros members.
  { cbn. by rewrite app_nil_r. }
  cbn [foldl]. rewrite IH. csimpl.
  destruct (item_login it) as [l|]; csimpl; [|done].
  destruct (JsString.truthy l); csimpl; [|done].
  by rewrite <- app_assoc.
Qed.

Lemma listed_members_logins data : m_login <$> listed_members data = item_logins data.
Proof.
  unfold listed_members. rewrite <- list_fmap_compose.
  induction (item_logins data) as [|l ls IH]; [done|]. cbn. by f_equal.
Qed.

(** An answer that is no full page ends the loop, with a result or with a
    failure. *)
Lemma getOrgMembers_loop_last org last :
  full_page last = false →
  ∃ final : list OrgMember → Outcome (list OrgMember),
    (∀ members, final members ≠ Diverge)
    ∧ ∀ fuel page members s w',
        github (OrgMembers org perPage page) (world s) = (last, w') →
        getOrgMembers_loop github (S fuel) org page members s =
          (final members, after s (OrgMembers org perPage page) w').
Proof.
  intros Hlast. destruct last as [msg|res].
  { exists (fun _ => Throw msg). split; [done|]. intros fuel page members s w' Hl.
    cbn [getOrgMembers_loop].
    by rewrite (bind_throw _ _ _ _ _ (fetch_run github _ _ _ _ Hl)). }
  destruct (status res =? 404)%Z eqn:E404.
  { exists Ret. split; [done|]. intros fuel page members s w' Hl.
    cbn [getOrgMembers_loop].
    rewrite (bind_ret _ _ _ _ _ (fetch_fulfilled _ _ _ _ Hl)). by rewrite E404. }
  destruct (status res =? 403)%Z eqn:E403.
  { exists (fun _ => Throw "Org members forbidden or rate limited (403).").
    split; [done|]. intros fuel page members s w' Hl. cbn [getOrgMembers_loop].
    rewrite (bind_ret _ _ _ _ _ (fetch_fulfilled _ _ _ _ Hl)). by rewrite E404, E403. }
  destruct (ok res) eqn:Hok.
  2:{ exists Ret. split; [done|]. intros fuel page members s w' Hl.
      cbn [getOrgMembers_loop].
      rewrite (bind_ret _ _ _ _ _ (fetch_fulfilled _ _ _ _ Hl)).
      by rewrite E404, E403, Hok. }
  destruct (body res) as [msg|j] eqn:Hbody.
  { exists (fun _ => Throw msg). split; [done|]. intros fuel page members s w' Hl.
    cbn [getOrgMembers_loop].
    rewrite (bind_ret _ _ _ _ _ (fetch_fulfilled _ _ _ _ Hl)).
    rewrite E404, E403, Hok. cbn [negb]. unfold json. by rewrite Hbody. }
  assert (∀ fuel page members s w',
            github (OrgMembers org perPage page) (world s) = (Fulfilled res, w') →
            getOrgMembers_loop github (S fuel) org page members s =
              (match j with
               | JArray ((_ :: _) as data) =>
                   let members' := push_logins members data in
                   if (length data <? perPage)%nat then mret members'
                   else
                     _ ← sleep 120;
                     getOrgMembers_loop github fuel org (page + 1) members'
               | _ => mret members
               end) (after s (OrgMembers org perPage page) w')) as Hrun.
  { intros fuel page members s w' Hl. cbn [getOrgMembers_loop].
    rewrite (bind_ret _ _ _ _ _ (fetch_fulfilled _ _ _ _ Hl)).
    rewrite E404, E403, Hok. cbn [negb]. unfold json. by rewrite Hbody, bind_mret. }
  cbn [full_page] in Hlast. rewrite Hok, Hbody in Hlast. cbn [andb] in Hlast.
  destruct j as [items|a|[|m data]|].
  - exists Ret. split; [done|]. intros fuel page members s w' Hl. by rewrite (Hrun _ _ _ _ _ Hl).
  - exists Ret. split; [done|]. intros fuel page members s w' Hl. by rewrite (Hrun _ _ _ _ _ Hl).
  - exists Ret. split; [done|]. intros fuel page members s w' Hl. by rewrite (Hrun _ _ _ _ _ Hl).
  - exists (fun members => Ret (push_logins members (m :: data))). split; [done|].
    intros fuel page members s w' Hl. rewrite (Hrun _ _ _ _ _ Hl). cbv zeta.
    apply Nat.leb_gt in Hlast. apply Nat.ltb_lt in Hlast. by rewrite Hlast.
  - exists Ret. split; [done|]. intros fuel page members s w' Hl. by rewrite (Hrun _ _ _ _ _ Hl).
Qed.

(** The enumeration ends when the member pages do. *)
Lemma getOrgMembers_ends fuel org s :
  PagesEnd github fuel org (world s) → (getOrgMembers github fuel org s).1 ≠ Diverge.
Proof.
  intros (pages & last & w' & Hserves & Hfull & Hlast & Hfuel).
  destruct (getOrgMembers_loop_last org last Hlast) as (final & Hfinal & Hrun).
  unfold getOrgMembers. destruct s as [w t].
  rewrite (getOrgMembers_loop_pages org w 1 pages last w' final Hserves
             (fun fuel page members s => Hrun fuel page members s w')
             fuel [] t Hfull Hfuel).
  apply Hfinal.
Qed.

(** More fuel does not change an enumeration that had enough. *)
Lemma getOrgMembers_loop_fuel fuel fuel' org page members s o s' :
  getOrgMembers_loop github fuel org page members s = (o, s') →
  o ≠ Diverge → fuel ≤ fuel' →
  getOrgMembers_loop github fuel' org page members s = (o, s').
Proof.
  revert fuel' page members s.
  induction fuel as [|fuel IH]; intros fuel' page members s Hrun Hnd Hle.
  { inversion Hrun. congruence. }
  destruct fuel' as [|fuel']; [lia|].
  cbn [getOrgMembers_loop] in *. unfold mbind, M_bind, bind in *.
  destruct (fetch github (OrgMembers org perPage page) s) as [[res|msg|] s1]; try done.
  destruct (status res =? 404)%Z; [done|].
  destruct (status res =? 403)%Z; [done|].
  destruct (negb (ok res)); [done|].
  destruct (json res s1) as [[data|msg|] s2]; try done.
  destruct data as [items|a|[|m data]|]; try done.
  destruct (length (m :: data) <? perPage); [done|].
  unfold sleep in *. apply IH; [done | done | lia].
Qed.

End Members.

(** ** Fuel

    A run that did not run out of fuel is the same with any larger fuel. *)

Section Fuel.

Context {W : Type} (github : Request → W → FetchResult * W).
Implicit Types (s : St W).

Lemma resolveOrg_fuel fuel fuel' name s o s' :
  resolveOrg github fuel name s = (o, s') →
  o ≠ Diverge → fuel ≤ fuel' →
  resolveOrg github fuel' name s = (o, s').
Proof.
  unfold resolveOrg, getOrgMembers, catch, mbind, M_bind, bind.
  intros Hrun Hnd Hle.
  destruct (getOrgMembers_loop github fuel name 1 [] s) as [om s1] eqn:Hm.
  assert (om ≠ Diverge) as Hom.
  { intros ->. inversion Hrun. congruence. }
  by rewrite (getOrgMembers_loop_fuel github _ _ _ _ _ _ _ _ Hm Hom Hle).
Qed.

Lemma resolveName_fuel fuel fuel' name s o s' :
  resolveName github fuel name s = (o, s') →
  o ≠ Diverge → fuel ≤ fuel' →
  resolveName github fuel' name s = (o, s').
Proof.
  intros Hrun Hnd Hle.
  destruct (github (SearchCommits name) (world s)) as [fr w1] eqn:H.
  destruct (decide (author_emails (search_items fr) = [])) as [He|Hne].
  - destruct (github (GetUser name) w1) as [fr2 w2] eqn:H2.
    rewrite (resolveName_miss github fuel _ _ _ _ _ _ H He H2) in Hrun.
    rewrite (resolveName_miss github fuel' _ _ _ _ _ _ H He H2).
    destruct (is_organization fr2); [|done].
    by apply (resolveOrg_fuel fuel).
  - rewrite (resolveName_hit github fuel _ _ _ _ H Hne) in Hrun.
    by rewrite (resolveName_hit github fuel' _ _ _ _ H Hne).
Qed.

Lemma resolve_each_fuel fuel fuel' raw results s o s' :
  resolve_each github fuel raw results s = (o, s') →
  o ≠ Diverge → fuel ≤ fuel' →
  resolve_each github fuel' raw results s = (o, s').
Proof.
  revert results s. induction raw as [|name raw IH]; intros results s Hrun Hnd Hle; [done|].
  rewrite resolve_each_cons in Hrun |- *.
  destruct (resolveName github fuel name s) as [or s1] eqn:Hr.
  assert (or ≠ Diverge) as Hor.
  { intros ->. inversion Hrun. congruence. }
  rewrite (resolveName_fuel _ _ _ _ _ _ Hr Hor Hle).
  destruct or as [r|msg|]; [by apply IH | done | done].
Qed.

Lemma POST_fuel fuel fuel' req s o s' :
  POST github fuel req s = (o, s') →
  o ≠ Diverge → fuel ≤ fuel' →
  POST github fuel' req s = (o, s').
Proof.
  intros Hrun Hnd Hle. destruct req as [msg|inputs|shape msg]; [done| |done].
  rewrite POST_unfold in Hrun |- *.
  destruct (resolve_each github fuel (raw_names inputs) [] s) as [oe s1] eqn:He.
  assert (oe ≠ Diverge) as Hoe.
  { intros ->. inversion Hrun. congruence. }
  by rewrite (resolve_each_fuel _ _ _ _ _ _ _ He Hoe Hle).
Qed.

(** Only the member enumeration can run out of fuel: when [fuel] is enough
    for every enumeration the service may be asked for, it is enough for the
    whole request. *)
Lemma resolveName_ends fuel name s :
  enumerations_end github fuel → (resolveName github fuel name s).1 ≠ Diverge.
Proof.
  intros Hend.
  destruct (github (SearchCommits name) (world s)) as [fr w1] eqn:H.
  destruct (decide (author_emails (search_items fr) = [])) as [He|Hne].
  - destruct (github (GetUser name) w1) as [fr2 w2] eqn:H2.
    rewrite (resolveName_miss github fuel _ _ _ _ _ _ H He H2).
    set (s2 := after (after s (SearchCommits name) w1) (GetUser name) w2).
    destruct (is_organization fr2).
    + destruct (resolveOrg_cases github fuel name s2)
        as [(members & s3 & r & s' & _ & Hr & _)|(s' & Hd & _)].
      * by rewrite Hr.
      * destruct (Hend name s2). by rewrite Hd.
    + destruct (github (GetUser name) (world s2)) as [fr3 w3] eqn:H3.
      by rewrite (resolveProfile_run github _ _ _ _ H3).
  - by rewrite (resolveName_hit github fuel _ _ _ _ H Hne).
Qed.

Lemma resolve_each_ends fuel raw results s :
  enumerations_end github fuel → (resolve_each github fuel raw results s).1 ≠ Diverge.
Proof.
  intros Hend. revert results s.
  induction raw as [|name raw IH]; intros results s; [done|].
  rewrite resolve_each_cons. pose proof (resolveName_ends fuel name s Hend) as Hn.
  destruct (resolveName github fuel name s) as [[r|msg|] s1]; [apply IH | done | done].
Qed.

Lemma POST_ends fuel req s :
  enumerations_end github fuel → (POST github fuel req s).1 ≠ Diverge.
Proof.
  intros Hend. destruct req as [msg|inputs|shape msg]; [done| |done]. rewrite POST_unfold.
  pose proof (resolve_each_ends fuel (raw_names inputs) [] s Hend) as He.
  by destruct (resolve_each github fuel (raw_names inputs) [] s) as [[results|msg|] s1].
Qed.

(** The same from the service's side: a request returns when the member
    pages of the names asked for end. *)
Lemma resolveOrg_returns fuel name s :
  PagesEnd github fuel name (world s) →
  ∃ r s', resolveOrg github fuel name s = (Ret r, s')
          ∧ r_input r = name ∧ r_type r = type_org.
Proof.
  intros Hend%getOrgMembers_ends.
  destruct (resolveOrg_cases github fuel name s)
    as [(members & s1 & r & s' & _ & Hr & Hin & Hty & _)|(s' & Hd & _)].
  - by exists r, s'.
  - rewrite Hd in Hend. by destruct Hend.
Qed.

Lemma resolveName_returns fuel name s :
  (∀ w, PagesEnd github fuel name w) → (resolveName github fuel name s).1 ≠ Diverge.
Proof.
  intros Hend.
  destruct (github (SearchCommits name) (world s)) as [fr w1] eqn:H.
  destruct (decide (author_emails (search_items fr) = [])) as [He|Hne].
  - destruct (github (GetUser name) w1) as [fr2 w2] eqn:H2.
    rewrite (resolveName_miss github fuel _ _ _ _ _ _ H He H2).
    set (s2 := after (after s (SearchCommits name) w1) (GetUser name) w2).
    destruct (is_organization fr2).
    + destruct (resolveOrg_returns fuel name s2 (Hend _)) as (r & s' & -> & _). done.
    + destruct (github (GetUser name) (world s2)) as [fr3 w3] eqn:H3.
      by rewrite (resolveProfile_run github _ _ _ _ H3).
  - by rewrite (resolveName_hit github fuel _ _ _ _ H Hne).
Qed.

Lemma resolve_each_returns fuel raw results s :
  (∀ name w, name ∈ raw → PagesEnd github fuel name w) →
  (resolve_each github fuel raw results s).1 ≠ Diverge.
Proof.
  revert results s. induction raw as [|name raw IH]; intros results s Hend; [done|].
  rewrite resolve_each_cons.
  pose proof (resolveName_returns fuel name s (fun w => Hend name w ltac:(left))) as Hn.
  destruct (resolveName github fuel name s) as [[r|msg|] s1]; [|done|done].
  apply IH. intros n w Hin. apply Hend. by right.
Qed.

(** The org branch on a service that serves full pages and then a last,
    short page or a 404: the organization with one enriched row per listed
    member, in page order. *)
Lemma resolveName_org_run fuel name s fr w1 fr2 w2 pages last tail w3 :
  github (SearchCommits name) (world s) = (fr, w1) →
  author_emails (search_items fr) = [] →
  github (GetUser name) w1 = (fr2, w2) →
  is_organization fr2 = true →
  Serves github name w2 1 pages last w3 →
  Forall (fun data => perPage ≤ length data) pages →
  FinalPage last tail →
  length pages < fuel →
  ∃ users s',
    resolveName github fuel name s =
      (Ret {| r_input := name; r_type := type_org; r_users := users |}, s')
    ∧ Forall2 (Enriched github) (listed_members (concat pages ++ tail)) users.
Proof.
  intros H He H2 Horg Hserves Hfull Hfinal Hfuel.
  rewrite (resolveName_miss github fuel _ _ _ _ _ _ H He H2), Horg.
  unfold resolveOrg, getOrgMembers, after. cbn [world trace].
  set (t := (trace s ++ [EvFetch (SearchCommits name)]) ++ [EvFetch (GetUser name)]).
  pose proof (getOrgMembers_loop_run github name w2 1 pages last w3 Hserves
                fuel [] tail t Hfull Hfinal Hfuel) as Hm.
  rewrite push_logins_listed in Hm. cbn [app] in Hm.
  rewrite (bind_ret _ _ _ _ _ (catch_ret _ _ _ _ _ Hm)).
  destruct (enrich_batches_run github (listed_members (concat pages ++ tail)) 0 []
              (mkSt w3 (t ++ page_events name 1 (length pages))))
    as (rows & s' & Hrows & HF).
  cbn [app drop] in Hrows, HF. exists rows, s'. split; [|done].
  by rewrite (bind_ret _ _ _ _ _ Hrows).
Qed.

End Fuel.

(** ** Names of a request *)

Section Names.

Lemma filter_truthy_trim (l : list string) :
  List.filter JsString.truthy (JsString.trim <$> l) =
  JsString.trim <$> List.filter (fun x => negb (JsString.blank x)) l.
Proof.
  induction l as [|x l IH]; [done|]. cbn [fmap list_fmap List.filter].
  unfold JsString.blank at 1. rewrite negb_involutive.
  destruct (JsString.truthy (JsString.trim x)); cbn [fmap list_fmap]; by rewrite <- IH.
Qed.

Lemma raw_names_nonblank inputs :
  raw_names inputs =
  JsString.trim <$> List.filter (fun x => negb (JsString.blank x)) (names_of inputs).
Proof.
  unfold raw_names, names_of. rewrite <- filter_truthy_trim.
  by rewrite <- list_fmap_compose.
Qed.

Lemma filter_all_blank (l : list string) :
  Forall (fun x => JsString.blank x = true) l →
  List.filter (fun x => negb (JsString.blank x)) l = [].
Proof.
  induction 1 as [|x l Hx _ IH]; [done|]. cbn [List.filter]. by rewrite Hx.
Qed.

Lemma raw_names_blank inputs :
  Forall (fun x => JsString.blank x = true) (names_of inputs) → raw_names inputs = [].
Proof. intros H. by rewrite raw_names_nonblank, filter_all_blank. Qed.

End Names.


(** ** The properties of the specification *)

Section Claims.

Context {W : Type} (github : Request → W → FetchResult * W).
Implicit Types (s : St W) (fr : FetchResult) (w : W).

(** C10.  For every list of strings, [dedupe] returns exactly the first
    occurrences of its elements, in the order of their first occurrence: the
    element at an index is kept when it does not occur at an earlier index.
    So [dedupe] is idempotent and leaves a duplicate-free list unchanged. *)
Theorem dedupe_first_occurrences (xs : list string) :
  dedupe xs = first_occurrences xs
  ∧ dedupe (dedupe xs) = dedupe xs
  ∧ (NoDup xs → dedupe xs = xs).
Proof.
  split; [apply dedupe_eq_first_occurrences|].
  split; [apply dedupe_idempotent | apply dedupe_NoDup_id].
Qed.

(** C5.  Whenever a name is resolved (the member enumeration not running out
    of fuel), [resolveName] returns a result, and on every user of that
    result the e-mails are pairwise different strings. *)
Theorem resolveName_emails_NoDup fuel name s :
  (resolveName github fuel name s).1 ≠ Diverge →
  ∃ r s', resolveName github fuel name s = (Ret r, s')
          ∧ Forall (fun u => NoDup (u_emails u)) (r_users r).
Proof.
  intros Hnd.
  destruct (resolveName_cases github fuel name s) as [(r & s' & Hr & _ & Hd)|(s' & Hd)].
  - eauto.
  - rewrite Hd in Hnd. by destruct Hnd.
Qed.

(** C9.  Take a name that resolves as an organization (no author e-mail in
    its commit search, a user lookup that reports an organization) on a
    service that answers the member enumeration with full pages and then a
    short page or a 404.  The resolution returns one user per listed member,
    in page order, and for every member the e-mails of its user are the first
    occurrences of the public e-mail of an answer to its profile lookup
    (when that has one) followed by the author e-mails of an answer to its
    commit search: profile e-mail first, then commit e-mails in commit
    order. *)
Theorem member_emails_merge fuel name s fr w1 fro w2 pages last tail w3 :
  github (SearchCommits name) (world s) = (fr, w1) →
  author_emails (search_items fr) = [] →
  github (GetUser name) w1 = (fro, w2) →
  is_organization fro = true →
  Serves github name w2 1 pages last w3 →
  Forall (fun data => perPage ≤ length data) pages →
  FinalPage last tail →
  length pages < fuel →
  ∃ r s',
    resolveName github fuel name s = (Ret r, s')
    ∧ r_type r = type_org
    ∧ Forall2
        (fun login u =>
           u_login u = login
           ∧ ∃ fr1 fr2,
               Answers github (GetUser login) fr1
               ∧ Answers github (SearchCommits login) fr2
               ∧ u_emails u =
                   first_occurrences
                     (public_email fr1 ++ author_emails (search_items fr2)))
        (item_logins (concat pages ++ tail)) (r_users r).
Proof.
  intros H He H2 Horg Hserves Hfull Hfinal Hfuel.
  destruct (resolveName_org_run github fuel name s _ _ _ _ _ _ _ _
              H He H2 Horg Hserves Hfull Hfinal Hfuel) as (users & s' & Hrun & HF).
  eexists _, s'. split; [exact Hrun|]. split; [reflexivity|]. cbn [r_users].
  unfold listed_members in HF. rewrite Forall2_fmap_l in HF.
  eapply Forall2_impl; [exact HF|]. cbn.
  intros login u (fr1 & fr2' & Ha1 & Ha2 & ->). split; [reflexivity|].
  exists fr1, fr2'. split; [done|]. split; [done|].
  apply dedupe_eq_first_occurrences.
Qed.


(** C3, as the code has it.  For every input name whose commit search
    returns at least one commit item with a non-empty author e-mail, the
    resolution yields an individual, whatever the user lookup would say of
    the name: the commit search is the only request sent, the organization
    check is not consulted. *)
Theorem resolveName_commit_email_individual fuel name s fr w1 it email :
  github (SearchCommits name) (world s) = (fr, w1) →
  it ∈ search_items fr → author_email it = Some email → email ≠ "" →
  ∃ r s',
    resolveName github fuel name s = (Ret r, s')
    ∧ r_type r = type_user
    ∧ r_input r = name
    ∧ trace s' = trace s ++ [EvFetch (SearchCommits name)].
Proof.
  intros H Hit He Hne.
  assert (author_emails (search_items fr) ≠ []) as Hemails.
  { intros Hnil. assert (email ∈ author_emails (search_items fr)) as Hin.
    { unfold author_emails. apply list_elem_of_omap. exists it. split; [done|].
      rewrite He. csimpl. by destruct email. }
    rewrite Hnil in Hin. by apply elem_of_nil in Hin. }
  rewrite (resolveName_hit github _ _ _ _ _ H Hemails). eexists _, _. done.
Qed.

(** C6.  For every input name whose commit search brings no author e-mail
    and whose user lookup reports the type "Organization", on a service
    whose member pages of that name end (full pages, fewer than the fuel,
    and then an answer that is no full page), the resolution yields an
    organization. *)
Theorem resolveName_organization fuel name s fr w1 res w2 a pages last w3 :
  github (SearchCommits name) (world s) = (fr, w1) →
  author_emails (search_items fr) = [] →
  github (GetUser name) w1 = (Fulfilled res, w2) →
  ok res = true → body res = Parsed (JAccount a) →
  account_type a = Some "Organization" →
  Serves github name w2 1 pages last w3 →
  Forall (fun data => perPage ≤ length data) pages →
  full_page last = false →
  length pages < fuel →
  ∃ r s',
    resolveName github fuel name s = (Ret r, s')
    ∧ r_type r = type_org
    ∧ r_input r = name.
Proof.
  intros H He H2 Hok Hbody Htype Hserves Hfull Hlast Hfuel.
  rewrite (resolveName_miss github _ _ _ _ _ _ _ H He H2).
  assert (is_organization (Fulfilled res) = true) as ->.
  { unfold is_organization, account_of. rewrite Hok, Hbody, Htype. by apply bool_decide_eq_true. }
  destruct (resolveOrg_returns github fuel name
              (after (after s (SearchCommits name) w1) (GetUser name) w2))
    as (r & s' & Hr & Hin & Hty).
  { by exists pages, last, w3. }
  by exists r, s'.
Qed.

(** C7.  Member enumeration asks for pages of 100 logins, page 1 first.  When
    the service answers with full pages and then with a last answer that is
    a page shorter than 100 (an empty one included) or a 404, the
    enumeration returns the members collected so far, that is one member for
    every item with a non-empty login on these pages, in page order, and has
    sent exactly one request per full page and one for the last answer:
    three requests for pages of the sizes 100, 100 and 37. *)
Theorem getOrgMembers_pagination fuel org s pages last tail w' :
  Serves github org (world s) 1 pages last w' →
  Forall (fun data => perPage ≤ length data) pages →
  FinalPage last tail →
  length pages < fuel →
  ∃ members evs,
    getOrgMembers github fuel org s = (Ret members, mkSt w' (trace s ++ evs))
    ∧ m_login <$> members = item_logins (concat pages ++ tail)
    ∧ fetches evs = OrgMembers org 100 <$> seq 1 (S (length pages))
    ∧ length (fetches evs) = S (length pages).
Proof.
  intros Hserves Hfull Hfinal Hfuel.
  exists (listed_members (concat pages ++ tail)), (page_events org 1 (length pages)).
  split; [|split; [|split]].
  - unfold getOrgMembers. destruct s as [w t].
    rewrite (getOrgMembers_loop_run github org w 1 pages last w' Hserves
               fuel [] tail t Hfull Hfinal Hfuel).
    by rewrite push_logins_listed.
  - apply listed_members_logins.
  - apply fetches_page_events.
  - by rewrite fetches_page_events, length_fmap, length_seq.
Qed.

(** C4.  For every input list, on a service whose member pages end for the
    names of the list, the handler answers 200 with one result per input
    name that is not blank, in input order and without collapsing repeated
    names: the inputs of the results are the trimmed non-blank names. *)
Theorem POST_one_result_per_name fuel (inputs : list (option string)) s :
  (∀ x w, x ∈ names_of (Some inputs) → JsString.blank x = false →
          PagesEnd github fuel (JsString.trim x) w) →
  ∃ results s',
    POST github fuel (GoodBody (Some inputs)) s =
      (Ret {| api_status := 200; api_body := ApiOk results |}, s')
    ∧ r_input <$> results =
        JsString.trim <$> List.filter (fun x => negb (JsString.blank x))
                            (names_of (Some inputs))
    ∧ length results =
        length (List.filter (fun x => negb (JsString.blank x)) (names_of (Some inputs))).
Proof.
  intros Hend.
  assert ((resolve_each github fuel (raw_names (Some inputs)) [] s).1 ≠ Diverge) as Hnd.
  { apply resolve_each_returns. intros name w Hin. rewrite raw_names_nonblank in Hin.
    apply list_elem_of_fmap in Hin as (x & -> & Hx).
    apply list_elem_of_In, filter_In in Hx as [Hx Hb]. apply list_elem_of_In in Hx.
    apply Hend; [done|]. by apply negb_true_iff. }
  destruct (POST_cases github fuel (Some inputs) s)
    as [(results & s' & evs & Hrun & Hin & _)|(s' & Hd)].
  - exists results, s'. rewrite raw_names_nonblank in Hin. split; [done|]. split; [done|].
    by rewrite <- (length_fmap r_input), Hin, length_fmap.
  - rewrite POST_unfold in Hd.
    destruct (resolve_each github fuel (raw_names (Some inputs)) [] s) as [[rs|msg|] s1];
      [done | done | by destruct Hnd].
Qed.

(** C1, as the code has it.  When the commit search for the first name of a
    batch is answered with a 403, the resolver catches the failure and goes
    on to the organization check of that name; the handler (the member
    enumerations not running out of fuel) answers 200 with one result per
    name of the batch, and has sent the commit search of every later
    name. *)
Theorem POST_rate_limit_is_caught fuel inputs name rest s res w1 :
  raw_names inputs = name :: rest →
  github (SearchCommits name) (world s) = (Fulfilled res, w1) →
  status res = 403%Z →
  (POST github fuel (GoodBody inputs) s).1 ≠ Diverge →
  ∃ results s' evs,
    POST github fuel (GoodBody inputs) s =
      (Ret {| api_status := 200; api_body := ApiOk results |}, s')
    ∧ r_input <$> results = name :: rest
    ∧ trace s' = trace s ++ EvFetch (SearchCommits name) :: EvFetch (GetUser name) :: evs
    ∧ ∀ n, n ∈ rest → SearchCommits n ∈ fetches evs.
Proof.
  intros Hraw H H403 Hnd.
  assert (author_emails (search_items (Fulfilled res)) = []) as He.
  { unfold search_items, ok. rewrite H403. reflexivity. }
  rewrite POST_unfold, Hraw, resolve_each_cons in Hnd |- *.
  destruct (resolveName_cases github fuel name s) as [(r & s1 & Hr & Hin & _)|(s' & Hd)].
  2:{ rewrite Hd in Hnd. by destruct Hnd. }
  destruct (resolveName_requests github _ _ _ _ _ _ _ H Hr) as (evs1 & Hevs1 & Hcheck).
  destruct (Hcheck He) as (evs1' & ->).
  rewrite Hr in Hnd |- *.
  destruct (resolve_each_cases github fuel rest ([] ++ [r])
              (mkSt (world s1) (trace s1 ++ [EvSleep 150])))
    as [(rs & s' & evs2 & Hrs & Hins & _ & Hevs2 & Hreq)|(s' & Hd)].
  2:{ rewrite Hd in Hnd. by destruct Hnd. }
  rewrite Hrs. exists (r :: rs), s', (evs1' ++ EvSleep 150 :: evs2).
  split; [done|]. split; [cbn [fmap list_fmap]; by rewrite Hin, Hins|]. split.
  - rewrite Hevs2. cbn [trace]. rewrite Hevs1, <- !app_assoc. reflexivity.
  - intros n Hn. unfold fetches. rewrite omap_app. apply elem_of_app. right.
    csimpl. by apply Hreq.
Qed.

(** C2, as the code has it.  For every request whose input list is empty or
    holds only blank strings, the handler sends no request to the service and
    answers 200 with an empty result list; the explanatory message comes from
    the form of the page, which for a text without a non-blank name sets the
    message and sends nothing. *)
Theorem blank_input_makes_no_call fuel inputs input s :
  Forall (fun x => JsString.blank x = true) (names_of inputs) →
  Forall (fun x => JsString.blank x = true) (JsString.split input) →
  POST github fuel (GoodBody inputs) s =
    (Ret {| api_status := 200; api_body := ApiOk [] |}, s)
  ∧ handleRun github fuel input s =
      (Ret {| loading := false;
              data := None;
              error := Some "Please enter at least one GitHub username or organization." |},
       s).
Proof.
  intros Hinputs Hinput. split.
  - rewrite POST_unfold, (raw_names_blank _ Hinputs). reflexivity.
  - unfold handleRun. rewrite filter_truthy_trim, (filter_all_blank _ Hinput). reflexivity.
Qed.

End Claims.

(** ** The properties at sample inputs *)

Section Instances.

Import Sample.

Lemma dedupe_first_occurrences_witness :
  dedupe ["a@x.org"; "b@x.org"] = first_occurrences ["a@x.org"; "b@x.org"]
  ∧ dedupe (dedupe ["a@x.org"; "b@x.org"]) = dedupe ["a@x.org"; "b@x.org"]
  ∧ dedupe ["a@x.org"; "b@x.org"] = ["a@x.org"; "b@x.org"].
Proof.
  destruct (dedupe_first_occurrences ["a@x.org"; "b@x.org"]) as (H1 & H2 & H3).
  split; [exact H1|]. split; [exact H2|]. apply H3.
  apply NoDup_cons. split; [|apply NoDup_singleton].
  intros Hin. apply list_elem_of_singleton in Hin. discriminate Hin.
Defined.

(** The text [octocat,  vercel], a line feed and a space parses to two
    names. *)
Example parse_two_names :
  List.filter JsString.truthy (JsString.trim <$> JsString.split "octocat,  vercel 
 ")
  = ["octocat"; "vercel"].
Proof. reflexivity. Qed.

Example trim_inner_space : JsString.trim "  Ada  Lovelace  " = "Ada  Lovelace".
Proof. reflexivity. Qed.

(** E-mails that differ in case only are different e-mails. *)
Example dedupe_case_sensitive :
  dedupe ["bob@x.org"; "Bob@x.org"; "bob@x.org"] = ["bob@x.org"; "Bob@x.org"].
Proof. vm_compute. reflexivity. Qed.

Lemma resolveName_emails_NoDup_witness :
  ∃ r s', resolveName (stateless acme) 5 "acme" start = (Ret r, s')
          ∧ Forall (fun u => NoDup (u_emails u)) (r_users r).
Proof.
  apply (resolveName_emails_NoDup (stateless acme) 5 "acme" start).
  vm_compute. intros H. discriminate H.
Defined.

(** [acme] lists [amy], who has a public e-mail and commits, and [bob]. *)
Lemma member_emails_merge_witness :
  ∃ r s',
    resolveName (stateless acme) 5 "acme" start = (Ret r, s')
    ∧ r_type r = type_org
    ∧ Forall2
        (fun login u =>
           u_login u = login
           ∧ ∃ fr1 fr2,
               Answers (stateless acme) (GetUser login) fr1
               ∧ Answers (stateless acme) (SearchCommits login) fr2
               ∧ u_emails u =
                   first_occurrences
                     (public_email fr1 ++ author_emails (search_items fr2)))
        ["amy"; "bob"] (r_users r).
Proof.
  apply (member_emails_merge (stateless acme) 5 "acme" start
           (acme (SearchCommits "acme")) () (acme (GetUser "acme")) ()
           [] (acme (OrgMembers "acme" perPage 1)) acme_page ()).
  - reflexivity.
  - reflexivity.
  - reflexivity.
  - reflexivity.
  - apply Serves_last. reflexivity.
  - apply Forall_nil_2.
  - apply (FinalPage_short {| status := 200; body := Parsed (JArray acme_page) |});
      [reflexivity | reflexivity | unfold perPage; simpl; lia].
  - simpl. lia.
Defined.


(** The same run, computed. *)
Example resolveName_team :
  (resolveName (stateless team) 5 "team" start).1 =
  Ret {| r_input := "team";
         r_type := type_org;
         r_users :=
           [ {| u_login := "amy"; u_name := Some "Amy A.";
                u_profileUrl := "https://github.com/amy";
                u_emails := ["a@y.org"; "amy@x.org"] |};
             {| u_login := "bob"; u_name := None;
                u_profileUrl := "https://github.com/bob";
                u_emails := ["bob@x.org"; "Bob@x.org"] |};
             {| u_login := "zed"; u_name := None;
                u_profileUrl := "https://github.com/zed";
                u_emails := [] |} ] |}.
Proof. vm_compute. reflexivity. Qed.

(** The chunk of the three members, computed. *)
Example enrich_chunk_sample :
  (enrich_chunk (stateless acme)
     [ {| m_login := "amy" |}; {| m_login := "bob" |}; {| m_login := "zed" |} ] start).1 =
  Ret [ {| u_login := "amy"; u_name := Some "Amy A.";
           u_profileUrl := "https://github.com/amy";
           u_emails := ["a@y.org"; "amy@x.org"] |};
        {| u_login := "bob"; u_name := None;
           u_profileUrl := "https://github.com/bob";
           u_emails := ["bob@x.org"; "Bob@x.org"] |};
        {| u_login := "zed"; u_name := None;
           u_profileUrl := "https://github.com/zed";
           u_emails := [] |} ].
Proof. vm_compute. reflexivity. Qed.

(** [vercel] authors commits and is an organization login: it is resolved
    as an individual, with one request. *)
Lemma resolveName_commit_email_individual_witness :
  is_organization (acme (GetUser "vercel")) = true
  ∧ ∃ r s',
      resolveName (stateless acme) 0 "vercel" start = (Ret r, s')
      ∧ r_type r = type_user
      ∧ r_input r = "vercel"
      ∧ trace s' = trace start ++ [EvFetch (SearchCommits "vercel")].
Proof.
  split; [reflexivity|].
  apply (resolveName_commit_email_individual (stateless acme) 0 "vercel" start
           (acme (SearchCommits "vercel")) ()
           (commit (Some "bot@vercel.com") (Some "Vercel Bot")) "bot@vercel.com").
  - reflexivity.
  - apply list_elem_of_singleton. reflexivity.
  - reflexivity.
  - intros H. discriminate H.
Defined.

(** C3 as stated fails: the commit search for [acme] returns two commit
    items, none with an author e-mail; the organization check is consulted
    and the name is resolved as an organization. *)
Lemma resolveName_commit_item_counterexample :
  length (search_items (acme (SearchCommits "acme"))) = 2
  ∧ ∃ r s',
      resolveName (stateless acme) 5 "acme" start = (Ret r, s')
      ∧ r_type r = type_org
      ∧ r_type r ≠ type_user
      ∧ fetches (trace s') !! 1 = Some (GetUser "acme").
Proof.
  split; [reflexivity|]. eexists _, _. split; [vm_compute; reflexivity|].
  split; [reflexivity|]. split; [intros H; discriminate H | reflexivity].
Qed.

Lemma resolveName_organization_witness :
  ∃ r s',
    resolveName (stateless acme) 5 "acme" start = (Ret r, s')
    ∧ r_type r = type_org
    ∧ r_input r = "acme".
Proof.
  apply (resolveName_organization (stateless acme) 5 "acme" start
           (acme (SearchCommits "acme")) ()
           {| status := 200;
              body := Parsed (JAccount {| account_type := Some "Organization";
                                          account_name := Some "Acme";
                                          account_email := None |}) |} ()
           {| account_type := Some "Organization";
              account_name := Some "Acme";
              account_email := None |}
           [] (acme (OrgMembers "acme" perPage 1)) ()).
  - reflexivity.
  - reflexivity.
  - reflexivity.
  - reflexivity.
  - reflexivity.
  - reflexivity.
  - apply Serves_last. reflexivity.
  - apply Forall_nil_2.
  - reflexivity.
  - simpl. lia.
Defined.

(** Pages of the sizes 100, 100 and 37: three requests, 237 members. *)
Lemma getOrgMembers_pagination_witness :
  ∃ members evs,
    getOrgMembers (stateless big) 3 "big" start =
      (Ret members, mkSt () (trace start ++ evs))
    ∧ m_login <$> members = replicate 237 "dev"
    ∧ fetches evs = OrgMembers "big" 100 <$> seq 1 3
    ∧ length (fetches evs) = 3.
Proof.
  apply (getOrgMembers_pagination (stateless big) 3 "big" start
           [page_of 100; page_of 100] (respond 200 (JArray (page_of 37))) (page_of 37) ()).
  - apply (Serves_page _ _ _ _ {| status := 200; body := Parsed (JArray (page_of 100)) |}
             (page_of 100) ()); [reflexivity | reflexivity | reflexivity |].
    apply (Serves_page _ _ _ _ {| status := 200; body := Parsed (JArray (page_of 100)) |}
             (page_of 100) ()); [reflexivity | reflexivity | reflexivity |].
    apply Serves_last. reflexivity.
  - apply Forall_cons. split; [apply le_n|].
    apply Forall_cons. split; [apply le_n | apply Forall_nil_2].
  - apply FinalPage_short; [reflexivity | reflexivity |].
    unfold page_of, perPage. rewrite length_replicate. lia.
  - simpl. lia.
Defined.

(** Blank entries are dropped, repeated names are kept. *)
Lemma POST_one_result_per_name_witness :
  ∃ results s',
    POST (stateless acme) 5
      (GoodBody (Some [Some " amy"; Some "  "; None; Some "acme "; Some "amy"])) start =
      (Ret {| api_status := 200; api_body := ApiOk results |}, s')
    ∧ r_input <$> results = ["amy"; "acme"; "amy"]
    ∧ length results = 3.
Proof.
  apply (POST_one_result_per_name (stateless acme) 5
           [Some " amy"; Some "  "; None; Some "acme "; Some "amy"] start).
  intros x w Hx Hb.
  exists [], (acme (OrgMembers (JsString.trim x) perPage 1)), w.
  split; [apply Serves_last; reflexivity|]. split; [apply Forall_nil_2|].
  split; [|simpl; lia].
  cbn in Hx. repeat (apply elem_of_cons in Hx as [->|Hx]); try reflexivity.
  by apply elem_of_nil in Hx.
Defined.

Lemma POST_rate_limit_is_caught_witness :
  ∃ results s' evs,
    POST (stateless rate_limited) 1 (GoodBody (Some [Some "octocat"; Some "vercel"])) start =
      (Ret {| api_status := 200; api_body := ApiOk results |}, s')
    ∧ r_input <$> results = ["octocat"; "vercel"]
    ∧ trace s' =
        trace start ++ EvFetch (SearchCommits "octocat") :: EvFetch (GetUser "octocat") :: evs
    ∧ ∀ n, n ∈ ["vercel"] → SearchCommits n ∈ fetches evs.
Proof.
  apply (POST_rate_limit_is_caught (stateless rate_limited) 1
           (Some [Some "octocat"; Some "vercel"]) "octocat" ["vercel"] start
           {| status := 403; body := Parsed JOther |} ()).
  - reflexivity.
  - reflexivity.
  - reflexivity.
  - vm_compute. intros H. discriminate H.
Defined.

(** C1 as stated fails: every request is answered with a 403, and the
    handler answers 200 with a result for each of the two names, having sent
    the requests for the second name as well. *)
Lemma POST_rate_limit_counterexample :
  rate_limited (SearchCommits "octocat") = respond 403 JOther
  ∧ ∃ s',
      POST (stateless rate_limited) 1 (GoodBody (Some [Some "octocat"; Some "vercel"])) start =
        (Ret {| api_status := 200;
                api_body := ApiOk [user_result "octocat" None [];
                                   user_result "vercel" None []] |}, s')
      ∧ SearchCommits "vercel" ∈ fetches (trace s')
      ∧ ∀ msg s'',
          POST (stateless rate_limited) 1
            (GoodBody (Some [Some "octocat"; Some "vercel"])) start
          ≠ (Ret {| api_status := 500; api_body := ApiError msg |}, s'').
Proof.
  split; [reflexivity|]. eexists. split; [vm_compute; reflexivity|]. split.
  - apply list_elem_of_In. vm_compute. tauto.
  - intros msg s'' H. vm_compute in H. discriminate H.
Qed.

Lemma blank_input_makes_no_call_witness :
  POST (stateless acme) 0 (GoodBody (Some [Some "  "; None])) start =
    (Ret {| api_status := 200; api_body := ApiOk [] |}, start)
  ∧ handleRun (stateless acme) 0 " ,  " start =
      (Ret {| loading := false;
              data := None;
              error := Some "Please enter at least one GitHub username or organization." |},
       start).
Proof.
  apply (blank_input_makes_no_call (stateless acme) 0 (Some [Some "  "; None]) " ,  " start).
  - apply Forall_cons. split; [reflexivity|].
    apply Forall_cons. split; [reflexivity | apply Forall_nil_2].
  - apply Forall_cons. split; [reflexivity|].
    apply Forall_cons. split; [reflexivity | apply Forall_nil_2].
Defined.

(** C2 as stated fails: for the empty input list the handler answers 200,
    which is no client-error status, with the body of a success. *)
Lemma POST_empty_input_counterexample :
  POST (stateless acme) 0 (GoodBody (Some [])) start =
    (Ret {| api_status := 200; api_body := ApiOk [] |}, start)
  ∧ ¬ ∃ status msg s',
        POST (stateless acme) 0 (GoodBody (Some [])) start =
          (Ret {| api_status := status; api_body := ApiError msg |}, s')
        ∧ (400 ≤ status ≤ 499)%Z.
Proof.
  split; [reflexivity|]. intros (status & msg & s' & H & _).
  vm_compute in H. discriminate H.
Qed.

End Instances.

(** ** The CSV export read back *)

Section CsvFacts.

Import Csv.

Lemma string_app_cons c (s r : string) : String c s +:+ r = String c (s +:+ r).
Proof. reflexivity. Qed.

Lemma string_app_nil_l (r : string) : "" +:+ r = r.
Proof. reflexivity. Qed.

Lemma string_app_nil_r (s : string) : s +:+ "" = s.
Proof. induction s as [|c s IH]; [done|]. by rewrite string_app_cons, IH. Qed.

Lemma string_app_assoc (a b c : string) : (a +:+ b) +:+ c = a +:+ b +:+ c.
Proof. induction a as [|x a IH]; [done|]. by rewrite !string_app_cons, IH. Qed.

(** Inside a quoted field the reader undoes the doubling of quotes, up to the
    closing quote. *)
Lemma read_quoted_body s field record records rest :
  read_go Quoted field record records (double_quotes s +:+ String quote rest) =
  read_go QuoteSeen (field +:+ s) record records rest.
Proof.
  revert field. induction s as [|c s IH]; intros field.
  { rewrite string_app_nil_r. cbn [double_quotes]. rewrite string_app_nil_l.
    cbn [read_go]. by rewrite Ascii.eqb_refl. }
  cbn [double_quotes]. destruct (Ascii.eqb c quote) eqn:Hc.
  - apply Ascii.eqb_eq in Hc as ->. rewrite !string_app_cons. cbn [read_go].
    rewrite Ascii.eqb_refl, IH, string_app_assoc. reflexivity.
  - rewrite !string_app_cons. cbn [read_go]. rewrite Hc, IH, string_app_assoc.
    reflexivity.
Qed.

Lemma read_escape s record records rest :
  read_go FieldStart "" record records (escape s +:+ rest) =
  read_go QuoteSeen s record records rest.
Proof.
  unfold escape. assert (JsString.or_else (Some s) "" = s) as -> by by destruct s.
  rewrite string_app_cons. cbn [read_go]. rewrite Ascii.eqb_refl, string_app_assoc.
  rewrite string_app_cons, string_app_nil_l. apply read_quoted_body.
Qed.

(** After the closing quote of a field: a comma starts the next field, a
    line feed the next record. *)
Lemma read_after_field_comma field record records rest :
  read_go QuoteSeen field record records (String comma "" +:+ rest) =
  read_go FieldStart "" (record ++ [field]) records rest.
Proof. reflexivity. Qed.

Lemma read_after_field_lf field record records rest :
  read_go QuoteSeen field record records (String LF rest) =
  read_go FieldStart "" [] (records ++ [record ++ [field]]) rest.
Proof. reflexivity. Qed.

(** A line of escaped fields that ends the text. *)
Lemma read_line_end (f : string) (fs : list string) record records :
  read_go FieldStart "" record records
    (String.concat (String comma "") (escape <$> f :: fs)) =
  Some (records ++ [record ++ f :: fs]).
Proof.
  revert f record. induction fs as [|g fs IH]; intros f record.
  - cbn [fmap list_fmap String.concat].
    rewrite <- (string_app_nil_r (escape f)), read_escape. reflexivity.
  - cbn [fmap list_fmap String.concat] in *.
    rewrite read_escape, read_after_field_comma, IH, <- app_assoc. reflexivity.
Qed.

(** A line of escaped fields followed by a line feed. *)
Lemma read_line_lf (f : string) (fs : list string) record records rest :
  read_go FieldStart "" record records
    (String.concat (String comma "") (escape <$> f :: fs) +:+ String LF rest) =
  read_go FieldStart "" [] (records ++ [record ++ f :: fs]) rest.
Proof.
  revert f record. induction fs as [|g fs IH]; intros f record.
  - cbn [fmap list_fmap String.concat]. rewrite read_escape. reflexivity.
  - cbn [fmap list_fmap String.concat] in *.
    rewrite !string_app_assoc, read_escape, read_after_field_comma.
    rewrite IH, <- app_assoc. reflexivity.
Qed.

Lemma read_lines (r : Row) (rs : list Row) records :
  read_go FieldStart "" [] records (String.concat (String LF "") (line <$> r :: rs)) =
  Some (records ++ (fields <$> r :: rs)).
Proof.
  revert r records. induction rs as [|r' rs IH]; intros r records.
  - cbn [fmap list_fmap String.concat].
    exact (read_line_end (row_source r)
             [row_kind r; row_login r; default "" (row_name r); row_profileUrl r;
              row_email r] [] records).
  - cbn [fmap list_fmap String.concat] in *.
    rewrite string_app_cons, string_app_nil_l.
    rewrite (read_line_lf (row_source r)
               [row_kind r; row_login r; default "" (row_name r); row_profileUrl r;
                row_email r] [] records).
    rewrite IH, <- app_assoc. reflexivity.
Qed.

Lemma read_header rest :
  read_go FieldStart "" [] []
    (String.concat (String comma "") header +:+ String LF rest) =
  read_go FieldStart "" [] [header] rest.
Proof. reflexivity. Qed.

End CsvFacts.

(** ** Further properties of the page *)

Section PageFacts.

Lemma elem_of_user_rows r u row :
  row ∈ user_rows r u ↔
  ∃ e, (e ∈ u_emails u ∨ (u_emails u = [] ∧ e = "")) ∧ row = row_of r u e.
Proof.
  unfold user_rows. destruct (u_emails u) as [|e0 es] eqn:He.
  - rewrite list_elem_of_singleton. split.
    + intros ->. exists "". split; [by right | done].
    + intros (e & [Hin|[_ ->]] & ->); [by apply elem_of_nil in Hin | done].
  - rewrite list_elem_of_fmap. split.
    + intros (e & -> & Hin). exists e. split; [by left | done].
    + intros (e & [Hin|[Hnil _]] & ->); [by exists e | done].
Qed.

Lemma length_user_rows r u : length (user_rows r u) = max 1 (length (u_emails u)).
Proof.
  unfold user_rows. destruct (u_emails u) as [|e0 es]; [done|].
  rewrite length_fmap. cbn [length]. lia.
Qed.

Lemma elem_of_rows (data : list ResultItem) (row : Row) :
  row ∈ rows (Some data) ↔
  ∃ r u e,
    r ∈ data ∧ u ∈ r_users r
    ∧ (e ∈ u_emails u ∨ (u_emails u = [] ∧ e = ""))
    ∧ row = row_of r u e.
Proof.
  unfold rows. rewrite list_elem_of_bind. split.
  - intros (r & Hrow & Hr). apply list_elem_of_bind in Hrow as (u & Hrow & Hu).
    apply elem_of_user_rows in Hrow as (e & He & ->). by exists r, u, e.
  - intros (r & u & e & Hr & Hu & He & ->). exists r. split; [|done].
    apply list_elem_of_bind. exists u. split; [|done].
    apply elem_of_user_rows. by exists e.
Qed.

(** The element at an index of a list built block by block lies in the
    block of one element, behind the blocks of the elements before it. *)
Lemma lookup_bind {A B} (f : A → list B) (l : list A) (n : nat) (y : B) :
  (l ≫= f) !! n = Some y ↔
  ∃ l1 x l2 k, l = l1 ++ x :: l2 ∧ f x !! k = Some y ∧ n = length (l1 ≫= f) + k.
Proof.
  revert n. induction l as [|a l IH]; intros n.
  { split; [done|]. intros (l1 & x & l2 & k & Hl & _). by destruct l1. }
  rewrite bind_cons, lookup_app_Some. split.
  - intros [Hn|[Hle Hn]].
    + by exists [], a, l, n.
    + apply IH in Hn as (l1 & x & l2 & k & -> & Hk & Hn).
      exists (a :: l1), x, l2, k. split; [done|]. split; [done|].
      rewrite bind_cons, length_app. lia.
  - intros (l1 & x & l2 & k & Hl & Hk & ->). destruct l1 as [|a' l1].
    + injection Hl as <- <-. by left.
    + injection Hl as <- ->. right. rewrite bind_cons, length_app. split; [lia|].
      apply IH. exists l1, x, l2, k. split; [done|]. split; [done|]. lia.
Qed.

Lemma user_rows_cells r u : user_rows r u = row_of r u <$> email_cells u.
Proof. unfold user_rows, email_cells. by destruct (u_emails u). Qed.

Lemma length_users_rows r us : length (us ≫= user_rows r) = row_count us.
Proof.
  unfold row_count. induction us as [|u us IH]; [done|].
  rewrite bind_cons, length_app, IH, length_user_rows. reflexivity.
Qed.

Lemma length_results_rows (results : list ResultItem) :
  length (results ≫= fun r => r_users r ≫= user_rows r) =
  sum_list_with (fun r => row_count (r_users r)) results.
Proof.
  induction results as [|r results IH]; [done|].
  rewrite bind_cons, length_app, IH, length_users_rows. reflexivity.
Qed.

(** X1.  The table rows are exactly these, in this order: result after
    result and, within a result, user after user, one row per e-mail of the
    user in e-mail order, or a single row with an empty e-mail cell when the
    user has none.  The row at an index is the row of the [k]-th e-mail cell
    of a user, and the index is the number of rows of the results and users
    before that user plus [k]; each row carries the input, kind, login, name
    and profile URL of its user. *)
Theorem rows_lookup (data : list ResultItem) (n : nat) (row : Row) :
  rows (Some data) !! n = Some row ↔
  ∃ before r behind ub u ua k e,
    data = before ++ r :: behind
    ∧ r_users r = ub ++ u :: ua
    ∧ email_cells u !! k = Some e
    ∧ n = sum_list_with (fun r => row_count (r_users r)) before + row_count ub + k
    ∧ row = row_of r u e.
Proof.
  unfold rows. rewrite lookup_bind. split.
  - intros (before & r & behind & k0 & -> & Hk0 & ->).
    apply lookup_bind in Hk0 as (ub & u & ua & k & Hu & Hk & ->).
    rewrite user_rows_cells, list_lookup_fmap in Hk.
    destruct (email_cells u !! k) as [e|] eqn:He; [|done]. injection Hk as <-.
    exists before, r, behind, ub, u, ua, k, e.
    split; [done|]. split; [done|]. split; [done|]. split; [|done].
    rewrite length_results_rows, length_users_rows. lia.
  - intros (before & r & behind & ub & u & ua & k & e & -> & Hu & He & -> & ->).
    exists before, r, behind, (row_count ub + k). split; [done|]. split.
    + apply lookup_bind. exists ub, u, ua, k. split; [done|]. split.
      * by rewrite user_rows_cells, list_lookup_fmap, He.
      * by rewrite length_users_rows.
    + rewrite length_results_rows. lia.
Qed.

(** X2.  The number of table rows (and of data lines of the export) is the
    sum, over all users of all results, of the number of e-mails of the
    user, a user without e-mail counting for one. *)
Theorem rows_length (data : list ResultItem) :
  length (rows (Some data)) =
  sum_list_with
    (fun r => sum_list_with (fun u => max 1 (length (u_emails u))) (r_users r)) data.
Proof.
  unfold rows. induction data as [|r data IH]; [done|].
  rewrite bind_cons, length_app, IH. cbn [sum_list_with]. f_equal.
  induction (r_users r) as [|u us IHu]; [done|].
  rewrite bind_cons, length_app, IHu, length_user_rows. reflexivity.
Qed.

(** X3.  The export does nothing exactly when there is no row, and there is
    no row exactly when there is no data or no result has a user. *)
Theorem downloadCSV_nothing (data : option (list ResultItem)) :
  Csv.downloadCSV (rows data) = None ↔
  data = None ∨ ∃ results, data = Some results ∧ Forall (fun r => r_users r = []) results.
Proof.
  assert (Csv.downloadCSV (rows data) = None ↔ rows data = []) as ->.
  { by destruct (rows data). }
  destruct data as [results|]; [|split; [by left | done]].
  split.
  - intros Hnil. right. exists results. split; [done|].
    apply Forall_forall. intros r Hr.
    destruct (r_users r) as [|u us] eqn:Hu; [done|]. exfalso.
    assert (row_of r u (default "" (head (u_emails u))) ∈ rows (Some results)) as Hin.
    { apply elem_of_rows. exists r, u, (default "" (head (u_emails u))).
      split; [done|]. split; [rewrite Hu; left|].
      split; [|done]. destruct (u_emails u) as [|e es]; [by right | left; left]. }
    rewrite Hnil in Hin. by apply elem_of_nil in Hin.
  - intros [Hnone|(results' & [= <-] & Hall)]; [done|].
    unfold rows. induction Hall as [|r rs Hr _ IH]; [done|].
    by rewrite bind_cons, Hr, IH.
Qed.

(** X4.  Whenever there are rows, the export offers the file
    [github_emails.csv], and its text read as CSV (quoted fields, a doubled
    quote for a quote) gives back the header record and, row by row, the six
    fields of every row unchanged, whatever commas, quotes or line feeds the
    fields hold; a missing name is written as an empty field. *)
Theorem downloadCSV_reads_back (rs : list Row) :
  rs ≠ [] →
  ∃ d,
    Csv.downloadCSV rs = Some d
    ∧ Csv.download d = "github_emails.csv"
    ∧ Csv.read (Csv.blob_text d) = Some (Csv.header :: (Csv.fields <$> rs)).
Proof.
  intros Hne. destruct rs as [|r rs]; [done|]. eexists. split; [reflexivity|].
  split; [reflexivity|]. cbn [Csv.blob_text]. unfold Csv.text, Csv.read.
  change (String.concat (String Csv.LF "")
            (String.concat (String Csv.comma "") Csv.header :: (Csv.line <$> r :: rs)))
    with (String.concat (String Csv.comma "") Csv.header
          +:+ String Csv.LF ""
          +:+ String.concat (String Csv.LF "") (Csv.line <$> r :: rs)).
  rewrite string_app_cons, string_app_nil_l, read_header. apply read_lines.
Qed.

End PageFacts.

(** ** Further properties of the route *)

Section TrimFacts.

Import JsString.

Lemma trimStart_head s c r : trimStart s = String c r → is_whitespace c = false.
Proof.
  induction s as [|c' s IH]; [done|]. cbn [trimStart].
  destruct (is_whitespace c') eqn:Hc; [done|]. by intros [= <- <-].
Qed.

Lemma trimStart_fixed c r : is_whitespace c = false → trimStart (String c r) = String c r.
Proof. intros Hc. cbn [trimStart]. by rewrite Hc. Qed.

Lemma trimEnd_head c r :
  is_whitespace c = false → ∃ r', trimEnd (String c r) = String c r'.
Proof. intros Hc. cbn [trimEnd]. rewrite Hc. destruct (trimEnd r); eauto. Qed.

Lemma trimEnd_idempotent s : trimEnd (trimEnd s) = trimEnd s.
Proof.
  induction s as [|c s IH]; [done|]. cbn [trimEnd].
  destruct (trimEnd s) as [|c' s'] eqn:Hs.
  - destruct (is_whitespace c) eqn:Hc; [done|]. cbn [trimEnd]. by rewrite Hc.
  - cbn [trimEnd] in *. by rewrite IH.
Qed.

Lemma trim_idempotent s : trim (trim s) = trim s.
Proof.
  unfold trim. destruct (trimStart s) as [|c r] eqn:Hs; [done|].
  pose proof (trimStart_head _ _ _ Hs) as Hc.
  destruct (trimEnd_head c r Hc) as [r' Hr'].
  rewrite Hr', (trimStart_fixed _ _ Hc), <- Hr'.
  apply trimEnd_idempotent.
Qed.

End TrimFacts.

Section RouteFacts.

Context {W : Type} (github : Request → W → FetchResult * W).
Implicit Types (s : St W) (fr : FetchResult) (w : W).

(** X5.  The names the handler resolves are never empty and carry no
    surrounding white space: trimming one again changes nothing. *)
Theorem raw_names_clean inputs (name : string) :
  name ∈ raw_names inputs → name ≠ "" ∧ JsString.trim name = name.
Proof.
  unfold raw_names. rewrite list_elem_of_In, filter_In, <- list_elem_of_In.
  intros [Hin Htruthy]. split; [by destruct name|].
  apply list_elem_of_fmap in Hin as (o & -> & _). apply trim_idempotent.
Qed.


Lemma author_emails_truthy items e : e ∈ author_emails items → e ≠ "".
Proof.
  unfold author_emails. rewrite list_elem_of_omap. intros (it & _ & He).
  destruct (author_email it) as [e'|]; [|done]. cbn in He.
  destruct e' as [|c r]; [done|]. cbn in He. by injection He as <-.
Qed.

Lemma public_email_truthy fr e : e ∈ public_email fr → e ≠ "".
Proof.
  unfold public_email. destruct (account_of fr ≫= account_email) as [[|c r]|];
    cbn; intros Hin; try by apply elem_of_nil in Hin.
  apply list_elem_of_singleton in Hin. by subst.
Qed.

Lemma public_email_short fr : length (public_email fr) ≤ 1.
Proof.
  unfold public_email. destruct (account_of fr ≫= account_email) as [[|c r]|]; cbn; lia.
Qed.

Lemma dedupe_public_email fr : dedupe (public_email fr) = public_email fr.
Proof.
  unfold public_email. destruct (account_of fr ≫= account_email) as [[|c r]|]; cbn;
    try apply dedupe_nil. apply dedupe_singleton.
Qed.

Lemma push_logins_named members data :
  Forall (fun m => m_login m ≠ "") members →
  Forall (fun m => m_login m ≠ "") (push_logins members data).
Proof.
  unfold push_logins. revert members.
  induction data as [|it data IH]; intros members Hm; [done|].
  cbn [foldl]. apply IH. destruct (item_login it) as [[|c r]|]; [done| |done].
  cbn [JsString.truthy]. apply Forall_app. split; [done|]. by repeat constructor.
Qed.

Lemma getOrgMembers_loop_named fuel org page members s ms s' :
  Forall (fun m => m_login m ≠ "") members →
  getOrgMembers_loop github fuel org page members s = (Ret ms, s') →
  Forall (fun m => m_login m ≠ "") ms.
Proof.
  revert page members s. induction fuel as [|fuel IH]; intros page members s Hm; [done|].
  cbn [getOrgMembers_loop]. unfold mbind, M_bind, bind.
  destruct (fetch github (OrgMembers org perPage page) s) as [[res|msg|] s1]; try done.
  destruct (status res =? 404)%Z; [by intros [= <- <-]|].
  destruct (status res =? 403)%Z; [done|].
  destruct (negb (ok res)); [by intros [= <- <-]|].
  destruct (json res s1) as [[data|msg|] s2]; try done.
  destruct data as [items|a|[|m data]|]; try by intros [= <- <-].
  pose proof (push_logins_named _ (m :: data) Hm) as Hp.
  destruct (length (m :: data) <? perPage).
  - intros [= <- <-]. exact Hp.
  - unfold sleep. intros Hrun. exact (IH _ _ _ Hp Hrun).
Qed.

Lemma getOrgMembers_caught_named fuel org s ms s' :
  catch (getOrgMembers github fuel org) [] s = (Ret ms, s') →
  Forall (fun m => m_login m ≠ "") ms.
Proof.
  unfold catch, getOrgMembers.
  destruct (getOrgMembers_loop github fuel org 1 [] s) as [[ms'|msg|] s1] eqn:Hrun.
  - intros [= <- <-]. by apply (getOrgMembers_loop_named _ _ _ _ _ _ _ (Forall_nil_2 _) Hrun).
  - by intros [= <- <-].
  - done.
Qed.

(** The three ways [resolveName] returns. *)
Lemma resolveName_inv fuel name s r s' :
  resolveName github fuel name s = (Ret r, s') →
  ∃ fr w1,
    github (SearchCommits name) (world s) = (fr, w1)
    ∧ ((author_emails (search_items fr) ≠ []
        ∧ s' = after s (SearchCommits name) w1
        ∧ r = user_result name (first_author_name (search_items fr))
                (dedupe (author_emails (search_items fr))))
       ∨ (author_emails (search_items fr) = []
          ∧ ∃ fr2 w2,
              github (GetUser name) w1 = (fr2, w2)
              ∧ ((is_organization fr2 = false
                  ∧ ∃ fr3 w3,
                      github (GetUser name) w2 = (fr3, w3)
                      ∧ s' = after (after (after s (SearchCommits name) w1)
                                      (GetUser name) w2) (GetUser name) w3
                      ∧ r = user_result name (account_of fr3 ≫= account_name)
                              (public_email fr3))
                 ∨ (is_organization fr2 = true
                    ∧ ∃ members s1,
                        catch (getOrgMembers github fuel name) []
                          (after (after s (SearchCommits name) w1) (GetUser name) w2)
                        = (Ret members, s1)
                        ∧ r_input r = name ∧ r_type r = type_org
                        ∧ Forall2 (Enriched github) members (r_users r))))).
Proof.
  intros Hrun.
  destruct (github (SearchCommits name) (world s)) as [fr w1] eqn:H.
  exists fr, w1. split; [done|].
  destruct (decide (author_emails (search_items fr) = [])) as [He|Hne].
  - right. split; [done|].
    destruct (github (GetUser name) w1) as [fr2 w2] eqn:H2. exists fr2, w2. split; [done|].
    rewrite (resolveName_miss github fuel _ _ _ _ _ _ H He H2) in Hrun.
    set (s2 := after (after s (SearchCommits name) w1) (GetUser name) w2) in *.
    destruct (is_organization fr2).
    + right. split; [done|].
      destruct (resolveOrg_cases github fuel name s2)
        as [(members & s3 & r0 & s0 & Hm & Hr & Hin & Hty & HF)|(s0 & _ & Hd)].
      * rewrite Hr in Hrun. injection Hrun as <- <-. by exists members, s3.
      * by rewrite Hd in Hrun.
    + left. split; [done|].
      destruct (github (GetUser name) (world s2)) as [fr3 w3] eqn:H3.
      exists fr3, w3. split; [done|].
      rewrite (resolveProfile_run github _ _ _ _ H3), dedupe_public_email in Hrun.
      by injection Hrun as <- <-.
  - left. split; [done|].
    rewrite (resolveName_hit github fuel _ _ _ _ H Hne) in Hrun.
    by injection Hrun as <- <-.
Qed.

(** X7.  Every user row the resolver returns has the profile URL
    [https://github.com/] followed by its login, and none of its e-mails is
    the empty string. *)
Theorem resolveName_rows fuel name s r s' :
  resolveName github fuel name s = (Ret r, s') →
  Forall (fun u => u_profileUrl u = "https://github.com/" +:+ u_login u
                   ∧ Forall (fun e => e ≠ "") (u_emails u)) (r_users r).
Proof.
  intros Hrun.
  destruct (resolveName_inv _ _ _ _ _ Hrun)
    as (fr & w1 & _ & [(_ & _ & ->)|(_ & fr2 & w2 & _ &
         [(_ & fr3 & w3 & _ & _ & ->)|(_ & members & s1 & _ & _ & _ & HF)])]).
  - repeat constructor. apply Forall_forall. intros e He. cbn [u_emails] in He.
    apply (proj1 (elem_of_dedupe _ _)) in He. by apply author_emails_truthy in He.
  - repeat constructor. apply Forall_forall. intros e He. cbn [u_emails] in He.
    by apply public_email_truthy in He.
  - induction HF as [|m u members users (fr1 & fr2' & _ & _ & ->) _ IH]; constructor; [|done].
    split; [done|]. apply Forall_forall. intros e He. cbn [member_row u_emails] in He.
    apply (proj1 (elem_of_dedupe _ _)) in He. apply elem_of_app in He as [He|He];
      [by apply public_email_truthy in He | by apply author_emails_truthy in He].
Qed.

(** X8.  A result carries the name it was asked for.  An individual has
    exactly one user, whose login is that name; the users of an organization
    are its enumerated members, one row each, in enumeration order, and all
    their logins are non-empty. *)
Theorem resolveName_users fuel name s r s' :
  resolveName github fuel name s = (Ret r, s') →
  r_input r = name
  ∧ (r_type r = type_user → ∃ u, r_users r = [u] ∧ u_login u = name)
  ∧ (r_type r = type_org →
     ∃ s2 members s3,
       catch (getOrgMembers github fuel name) [] s2 = (Ret members, s3)
       ∧ u_login <$> r_users r = m_login <$> members
       ∧ Forall (fun u => u_login u ≠ "") (r_users r)).
Proof.
  intros Hrun.
  destruct (resolveName_inv _ _ _ _ _ Hrun)
    as (fr & w1 & _ & [(_ & _ & ->)|(_ & fr2 & w2 & _ &
         [(_ & fr3 & w3 & _ & _ & ->)|(_ & members & s1 & Hm & Hin & Hty & HF)])]).
  - split; [done|]. split; [eauto | done].
  - split; [done|]. split; [eauto | done].
  - split; [done|]. split; [by rewrite Hty|]. intros _.
    eexists _, members, s1. split; [exact Hm|].
    pose proof (Enriched_rows_login github _ _ HF) as Hlogins. split; [done|].
    apply (Forall_fmap u_login (fun l => l ≠ "")). rewrite Hlogins.
    apply Forall_fmap. exact (getOrgMembers_caught_named _ _ _ _ _ Hm).
Qed.

(** X9.  When the commit search of a name brings at least one non-empty
    author e-mail, the individual returned has for display name the first
    non-empty author name among the commit items (also when that item has
    no e-mail) and for e-mails the non-empty author e-mails of the items, in
    item order, each once. *)
Theorem resolveName_commit_author fuel name s fr w1 :
  github (SearchCommits name) (world s) = (fr, w1) →
  author_emails (search_items fr) ≠ [] →
  resolveName github fuel name s =
    (Ret (user_result name (first_author_name (search_items fr))
            (first_occurrences (author_emails (search_items fr)))),
     after s (SearchCommits name) w1).
Proof.
  intros H Hne. rewrite (resolveName_hit github fuel _ _ _ _ H Hne).
  by rewrite dedupe_eq_first_occurrences.
Qed.

(** X10.  When the commit search brings no e-mail and the user lookup of the
    organization check does not report an organization, the name is looked
    up a second time and returned as an individual with the display name of
    that second answer and at most one e-mail, its non-empty public e-mail;
    three requests were sent. *)
Theorem resolveName_profile fuel name s fr w1 fr2 w2 fr3 w3 :
  github (SearchCommits name) (world s) = (fr, w1) →
  author_emails (search_items fr) = [] →
  github (GetUser name) w1 = (fr2, w2) →
  is_organization fr2 = false →
  github (GetUser name) w2 = (fr3, w3) →
  resolveName github fuel name s =
    (Ret (user_result name (account_of fr3 ≫= account_name) (public_email fr3)),
     mkSt w3 (trace s ++ [EvFetch (SearchCommits name); EvFetch (GetUser name);
                          EvFetch (GetUser name)]))
  ∧ length (public_email fr3) ≤ 1.
Proof.
  intros H He H2 Horg H3. split; [|apply public_email_short].
  rewrite (resolveName_miss github fuel _ _ _ _ _ _ H He H2), Horg.
  rewrite (resolveProfile_run github name
             (after (after s (SearchCommits name) w1) (GetUser name) w2) fr3 w3 H3).
  rewrite dedupe_public_email.
  unfold after. cbn [trace]. by rewrite <- !app_assoc.
Qed.

(** X11.  A name nobody answers for (no commit e-mail, and both user lookups
    fail: a 404, any other failure status, a rejected request or a body
    that does not parse) is returned as an individual without display name
    and without e-mail; it is no error. *)
Theorem resolveName_unknown fuel name s fr w1 fr2 w2 fr3 w3 :
  github (SearchCommits name) (world s) = (fr, w1) →
  author_emails (search_items fr) = [] →
  github (GetUser name) w1 = (fr2, w2) → lookup_failed fr2 = true →
  github (GetUser name) w2 = (fr3, w3) → lookup_failed fr3 = true →
  ∃ s', resolveName github fuel name s = (Ret (user_result name None []), s').
Proof.
  intros H He H2 Hf2 H3 Hf3.
  assert (is_organization fr2 = false) as Horg.
  { unfold is_organization. by rewrite (lookup_failed_account _ Hf2). }
  destruct (resolveName_profile fuel name s _ _ _ _ _ _ H He H2 Horg H3) as [-> _].
  unfold public_email. rewrite (lookup_failed_account _ Hf3). eauto.
Qed.

Lemma not_ok_403 res : status res = 403%Z → ok res = false.
Proof. intros H. unfold ok. by rewrite H. Qed.

(** X12.  [tryCommitEmail] sends exactly one request and fails in exactly
    three cases: the request is rejected, the status is 403 (with the
    rate-limit message), or the body of a success response does not parse.
    A 422, any other failure status and an answer without items give
    [null], silently. *)
Theorem tryCommitEmail_raises username s fr w' :
  github (SearchCommits username) (world s) = (fr, w') →
  ∃ o,
    tryCommitEmail github username s = (o, after s (SearchCommits username) w')
    ∧ o ≠ Diverge
    ∧ (∀ msg, o = Throw msg ↔ Raises fr msg)
    ∧ (search_items fr = [] → ∀ r, o = Ret r → r = None).
Proof.
  intros H. unfold tryCommitEmail, mbind, M_bind, bind.
  rewrite (fetch_run github _ _ _ _ H).
  destruct fr as [msg|res].
  { eexists. split; [reflexivity|]. split; [done|]. split; [|done].
    intros msg'. split; [intros [= <-]; constructor | by inversion 1]. }
  destruct (status res =? 422)%Z eqn:E422.
  { apply Z.eqb_eq in E422. eexists. split; [reflexivity|]. split; [done|].
    split; [|by intros _ r [= <-]].
    intros msg'. split; [done|]. inversion 1 as [|? H403|? ? Hok]; subst.
    - congruence.
    - unfold ok in Hok. rewrite E422 in Hok. done. }
  destruct (status res =? 403)%Z eqn:E403.
  { apply Z.eqb_eq in E403. eexists. split; [reflexivity|]. split; [done|].
    split; [|done].
    intros msg'. split; [intros [= <-]; by constructor|].
    inversion 1 as [|? H403|? ? Hok]; subst; [done|].
    by rewrite (not_ok_403 _ E403) in Hok. }
  apply Z.eqb_neq in E403.
  destruct (ok res) eqn:Hok; cbn [negb].
  2:{ eexists. split; [reflexivity|]. split; [done|]. split; [|by intros _ r [= <-]].
      intros msg'. split; [done|]. inversion 1; subst; congruence. }
  unfold json. destruct (body res) as [msg|j] eqn:Hbody.
  { eexists. split; [reflexivity|]. split; [done|]. split; [|done].
    intros msg'. split; [intros [= <-]; by constructor|].
    inversion 1; subst; congruence. }
  assert (∀ msg', ¬ Raises (Fulfilled res) msg') as Hnr.
  { intros msg'. inversion 1; subst; congruence. }
  cbv beta iota delta [ret mret M_ret].
  destruct (match j with JSearch items => items | _ => [] end) as [|it items] eqn:Hitems.
  { eexists. split; [reflexivity|]. split; [done|].
    split; [intros msg'; split; [done | by intros ?%Hnr]|]. by intros _ r [= <-]. }
  destruct (foldl commit_step ([], None) (it :: items)) as [emails authorName].
  eexists. split; [reflexivity|]. split; [done|].
  split; [intros msg'; split; [done | by intros ?%Hnr]|].
  unfold search_items. rewrite Hok, Hbody. destruct j; try done.
  cbn in Hitems. by rewrite Hitems.
Qed.

(** X19.  The members pushed for a page are its items that have a non-empty
    login, in page order and without removing repeated logins; items without
    login are skipped. *)
Theorem push_logins_logins (members : list OrgMember) (data : list MemberItem) :
  m_login <$> push_logins members data = (m_login <$> members) ++ item_logins data.
Proof.
  unfold push_logins, item_logins. revert members.
  induction data as [|it data IH]; intros members.
  { cbn. by rewrite app_nil_r. }
  cbn [foldl]. rewrite IH. csimpl.
  destruct (item_login it) as [l|]; csimpl; [|done].
  destruct (JsString.truthy l); csimpl; [|done].
  by rewrite fmap_app, <- app_assoc.
Qed.

(** X13.  A 403, a rejected request or a success response that does not
    parse, on any page of the member enumeration, makes the enumeration
    fail; the resolver then returns the organization without any member,
    the members of the full pages read before included. *)
Theorem getOrgMembers_failure_discards fuel org s pages last msg w' :
  Serves github org (world s) 1 pages last w' →
  Forall (fun data => perPage ≤ length data) pages →
  Aborts last msg →
  length pages < fuel →
  getOrgMembers github fuel org s =
    (Throw msg, mkSt w' (trace s ++ page_events org 1 (length pages)))
  ∧ resolveOrg github fuel org s =
      (Ret {| r_input := org; r_type := type_org; r_users := [] |},
       mkSt w' (trace s ++ page_events org 1 (length pages))).
Proof.
  intros Hserves Hfull Habort Hfuel.
  assert (getOrgMembers github fuel org s =
          (Throw msg, mkSt w' (trace s ++ page_events org 1 (length pages)))) as Hthrow.
  { unfold getOrgMembers. destruct s as [w t].
    apply (getOrgMembers_loop_pages github org w 1 pages last w' (fun _ => Throw msg)
             Hserves);
      [|done..].
    intros fuel0 page members s0 Hl. cbn [getOrgMembers_loop].
    destruct Habort as [msg|res H403|res msg Hok Hbody].
    - by rewrite (bind_throw _ _ _ _ _ (fetch_run github _ _ _ _ Hl)).
    - rewrite (bind_ret _ _ _ _ _ (fetch_fulfilled github _ _ _ _ Hl)).
      by rewrite H403.
    - rewrite (bind_ret _ _ _ _ _ (fetch_fulfilled github _ _ _ _ Hl)).
      destruct (ok_status _ Hok) as (_ & -> & ->). rewrite Hok. cbn [negb].
      unfold json. by rewrite Hbody. }
  split; [done|]. unfold resolveOrg.
  rewrite (bind_ret _ _ _ _ _ (catch_throw _ _ _ _ _ Hthrow)).
  rewrite enrich_batches_equation_1. reflexivity.
Qed.

(** X14.  A failure status other than 403 (a 500, say), or a success
    response whose body is no array, on any page of the member enumeration,
    ends the enumeration with the members of the full pages read before:
    one member for every item of these pages with a non-empty login, in
    page order. *)
Theorem getOrgMembers_break_keeps fuel org s pages last w' :
  Serves github org (world s) 1 pages last w' →
  Forall (fun data => perPage ≤ length data) pages →
  Breaks last →
  length pages < fuel →
  ∃ members,
    getOrgMembers github fuel org s =
      (Ret members, mkSt w' (trace s ++ page_events org 1 (length pages)))
    ∧ m_login <$> members = item_logins (concat pages).
Proof.
  intros Hserves Hfull Hbreak Hfuel. exists (listed_members (concat pages)).
  split; [|apply listed_members_logins].
  - unfold getOrgMembers. destruct s as [w t].
    rewrite <- (app_nil_l (listed_members (concat pages))), <- push_logins_listed.
    apply (getOrgMembers_loop_pages github org w 1 pages last w' Ret Hserves); [|done..].
    intros fuel0 page members s0 Hl. cbn [getOrgMembers_loop].
    destruct Hbreak as [res Hok H403|res j Hok Hbody Hj].
    + rewrite (bind_ret _ _ _ _ _ (fetch_fulfilled github _ _ _ _ Hl)).
      apply Z.eqb_neq in H403. rewrite H403, Hok. cbn [negb].
      by destruct (status res =? 404)%Z.
    + rewrite (bind_ret _ _ _ _ _ (fetch_fulfilled github _ _ _ _ Hl)).
      destruct (ok_status _ Hok) as (_ & -> & ->). rewrite Hok. cbn [negb].
      unfold json. rewrite Hbody, bind_mret.
      destruct j as [items|a|data|]; try done. by destruct (Hj data).
Qed.

Lemma fetches_app t1 t2 : fetches (t1 ++ t2) = fetches t1 ++ fetches t2.
Proof. apply omap_app. Qed.

Lemma sleeps_app t1 t2 : sleeps (t1 ++ t2) = sleeps t1 ++ sleeps t2.
Proof. apply omap_app. Qed.

Lemma fetches_requests {A} (f : A → Request) (l : list A) :
  fetches ((fun x => EvFetch (f x)) <$> l) = f <$> l.
Proof. induction l as [|x l IH]; [done|]. cbn. by f_equal. Qed.

Lemma sleeps_requests {A} (f : A → Request) (l : list A) :
  sleeps ((fun x => EvFetch (f x)) <$> l) = [].
Proof. induction l as [|x l IH]; [done|]. by cbn. Qed.

Lemma memberRow_state m profile s fr2 w2 :
  github (SearchCommits (m_login m)) (world s) = (fr2, w2) →
  ∃ row, memberRow github m profile s =
           (Ret row, after s (SearchCommits (m_login m)) w2).
Proof.
  intros H2. unfold memberRow.
  rewrite (bind_ret _ _ _ _ _ (tryCommitEmail_caught github _ _ _ _ H2)). eauto.
Qed.

Lemma memberProfiles_trace (chunk : list OrgMember) s :
  ∃ profiles s1,
    mapM (memberProfile github) chunk s = (Ret profiles, s1)
    ∧ length profiles = length chunk
    ∧ trace s1 = trace s ++ ((fun m => EvFetch (GetUser (m_login m))) <$> chunk).
Proof.
  revert s. induction chunk as [|m chunk IH]; intros s.
  { exists [], s. by rewrite app_nil_r. }
  destruct (github (GetUser (m_login m)) (world s)) as [fr1 w1] eqn:H1.
  destruct (IH (after s (GetUser (m_login m)) w1)) as (profiles & s1 & Hrest & Hlen & Ht).
  exists (profile_of fr1 :: profiles), s1. split; [|split].
  - rewrite mapM_cons, (bind_ret _ _ _ _ _ (memberProfile_run github _ _ _ _ H1)).
    by rewrite (bind_ret _ _ _ _ _ Hrest).
  - cbn [length]. by rewrite Hlen.
  - rewrite Ht. cbn [after trace fmap list_fmap]. by rewrite <- app_assoc.
Qed.

Lemma memberRows_trace (chunk : list OrgMember) (profiles : list (option Profile)) s :
  length profiles = length chunk →
  ∃ rows s',
    mapM (fun mp => memberRow github mp.1 mp.2) (zip chunk profiles) s = (Ret rows, s')
    ∧ trace s' = trace s ++ ((fun m => EvFetch (SearchCommits (m_login m))) <$> chunk).
Proof.
  revert profiles s. induction chunk as [|m chunk IH]; intros profiles s Hlen.
  { exists [], s. by rewrite app_nil_r. }
  destruct profiles as [|profile profiles]; [done|]. injection Hlen as Hlen.
  destruct (github (SearchCommits (m_login m)) (world s)) as [fr2 w2] eqn:H2.
  destruct (memberRow_state m profile s _ _ H2) as [row Hrow].
  destruct (IH profiles (after s (SearchCommits (m_login m)) w2) Hlen)
    as (rows & s' & Hrest & Ht).
  exists (row :: rows), s'. split.
  - cbn [zip_with]. rewrite mapM_cons. cbn [fst snd].
    rewrite (bind_ret _ _ _ _ _ Hrow). by rewrite (bind_ret _ _ _ _ _ Hrest).
  - rewrite Ht. cbn [after trace fmap list_fmap]. by rewrite <- app_assoc.
Qed.

(** The requests of a chunk: the profile lookups, then the commit
    searches. *)
Lemma enrich_chunk_trace (chunk : list OrgMember) s :
  ∃ rows s',
    enrich_chunk github chunk s = (Ret rows, s')
    ∧ trace s' =
        trace s ++ ((fun m => EvFetch (GetUser (m_login m))) <$> chunk)
                ++ ((fun m => EvFetch (SearchCommits (m_login m))) <$> chunk).
Proof.
  destruct (memberProfiles_trace chunk s) as (profiles & s1 & Hp & Hlen & Ht1).
  destruct (memberRows_trace chunk profiles s1 Hlen) as (rows & s' & Hr & Ht2).
  exists rows, s'. split.
  - unfold enrich_chunk. by rewrite (bind_ret _ _ _ _ _ Hp).
  - by rewrite Ht2, Ht1, <- app_assoc.
Qed.

Lemma member_requests_chunk (chunk : list OrgMember) :
  ((fun m => GetUser (m_login m)) <$> chunk)
  ++ ((fun m => SearchCommits (m_login m)) <$> chunk)
  ≡ₚ member_requests chunk.
Proof.
  unfold member_requests. induction chunk as [|m chunk IH]; [done|].
  cbn [fmap list_fmap]. rewrite bind_cons. cbn [app].
  constructor. rewrite <- Permutation_middle. by constructor.
Qed.

Lemma length_member_requests (members : list OrgMember) :
  length (member_requests members) = 2 * length members.
Proof.
  unfold member_requests. induction members as [|m members IH]; [done|].
  change (length (GetUser (m_login m) :: SearchCommits (m_login m)
                  :: (members ≫= fun m => [GetUser (m_login m); SearchCommits (m_login m)]))
          = 2 * S (length members)).
  cbn [length]. rewrite IH. lia.
Qed.

Lemma batches_succ k : 0 < k → (k + 4) / 5 = S ((k - 5 + 4) / 5).
Proof.
  intros Hk. destruct (decide (k < 5)) as [Hlt|Hge].
  - replace (k - 5 + 4) with 4 by lia.
    do 5 (destruct k as [|k]; [done || lia|]). lia.
  - replace (k + 4) with ((k - 5 + 4) + 1 * 5) by lia.
    rewrite Nat.div_add by lia. lia.
Qed.

Lemma enrich_batches_trace members i users s :
  ∃ rows s' evs,
    enrich_batches github members i users s = (Ret rows, s')
    ∧ trace s' = trace s ++ evs
    ∧ fetches evs ≡ₚ member_requests (drop i members)
    ∧ sleeps evs = replicate ((length members - i + 4) / 5) 250.
Proof.
  remember (length members - i) as n eqn:Hn.
  revert i users s Hn. induction n as [n IH] using lt_wf_ind. intros i users s Hn.
  rewrite enrich_batches_equation_1. unfold enrich_batches_unfold_clause_1.
  destruct (decide (i < length members)) as [Hlt|Hge].
  - destruct (enrich_chunk_trace (slice i (i + batchSize) members) s)
      as (chunkRows & s1 & Hchunk & Ht1).
    rewrite (bind_ret _ _ _ _ _ Hchunk).
    unfold mbind at 1, M_bind at 1, bind at 1, sleep at 1.
    destruct (IH (length members - (i + batchSize))
                ltac:(unfold batchSize; lia)
                (i + batchSize) (users ++ chunkRows)
                (mkSt (world s1) (trace s1 ++ [EvSleep 250])) eq_refl)
      as (rows & s' & evs & Hrest & Ht & Hf & Hs).
    set (chunk := slice i (i + batchSize) members) in *.
    exists rows, s',
      ((((fun m => EvFetch (GetUser (m_login m))) <$> chunk)
        ++ ((fun m => EvFetch (SearchCommits (m_login m))) <$> chunk))
       ++ [EvSleep 250] ++ evs).
    split; [done|]. split; [|split].
    + rewrite Ht. cbn [trace]. rewrite Ht1, <- !app_assoc. reflexivity.
    + rewrite !fetches_app, !fetches_requests. cbn [fetches omap]. rewrite app_nil_l.
      rewrite Hf, member_requests_chunk.
      unfold chunk, slice, member_requests.
      replace (i + batchSize - i) with batchSize by lia.
      rewrite <- bind_app, <- drop_drop, take_drop. reflexivity.
    + rewrite !sleeps_app, !sleeps_requests, Hs. cbn [sleeps omap app].
      rewrite (batches_succ n) by lia.
      replace (length members - (i + batchSize)) with (n - 5)
        by (unfold batchSize; lia).
      reflexivity.
  - exists users, s, []. rewrite app_nil_r. split; [done|]. split; [done|].
    rewrite drop_ge by lia. replace n with 0 by lia. by split.
Qed.

(** X15.  Enriching [n] members sends exactly two requests per member, a
    profile lookup and a commit search (within a chunk of five the lookups go
    first), and pauses 250 ms once per chunk, that is [n] over five, rounded
    up, times. *)
Theorem enrich_batches_budget (members : list OrgMember) s :
  ∃ rows s' evs,
    enrich_batches github members 0 [] s = (Ret rows, s')
    ∧ trace s' = trace s ++ evs
    ∧ fetches evs ≡ₚ member_requests members
    ∧ length (fetches evs) = 2 * length members
    ∧ sleeps evs = replicate ((length members + 4) / 5) 250.
Proof.
  destruct (enrich_batches_trace members 0 [] s) as (rows & s' & evs & Hrun & Ht & Hf & Hs).
  exists rows, s', evs. rewrite Nat.sub_0_r in Hs. cbn [drop] in Hf.
  repeat split; try done.
  rewrite (Permutation_length Hf). apply length_member_requests.
Qed.

End RouteFacts.

(** ** The form of the page *)

Section FormFacts.

Import JsString.

Lemma split_no_separator a : no_separator a = true → split a = [a].
Proof.
  induction a as [|c a IH]; [done|]. cbn [no_separator split].
  intros [Hc Ha]%andb_true_iff. apply negb_true_iff in Hc. by rewrite Hc, (IH Ha).
Qed.

Lemma split_app_separator a c rest :
  no_separator a = true → is_separator c = true →
  split (a +:+ String c rest) = a :: split rest.
Proof.
  intros Ha Hc. induction a as [|x a IH].
  { rewrite string_app_nil_l. cbn [split]. by rewrite Hc. }
  cbn [no_separator] in Ha. apply andb_true_iff in Ha as [Hx Ha].
  apply negb_true_iff in Hx. rewrite string_app_cons. cbn [split].
  by rewrite Hx, (IH Ha).
Qed.

Lemma split_pieces input piece : piece ∈ split input → no_separator piece = true.
Proof.
  revert piece. induction input as [|c input IH]; intros piece.
  { cbn [split]. by intros ->%list_elem_of_singleton. }
  cbn [split]. destruct (is_separator c) eqn:Hc.
  - intros [->|Hin]%elem_of_cons; [done | by apply IH].
  - destruct (split input) as [|h t] eqn:Hs.
    + intros ->%list_elem_of_singleton. cbn [no_separator]. by rewrite Hc.
    + intros [->|Hin]%elem_of_cons.
      * cbn [no_separator]. rewrite Hc. apply IH. left.
      * apply IH. by right.
Qed.

Lemma trimStart_no_separator s : no_separator s = true → no_separator (trimStart s) = true.
Proof.
  induction s as [|c s IH]; [done|]. intros Hs. cbn [trimStart].
  destruct (is_whitespace c); [|done].
  cbn [no_separator] in Hs. apply andb_true_iff in Hs as [_ Hs]. by apply IH.
Qed.

Lemma trimEnd_no_separator s : no_separator s = true → no_separator (trimEnd s) = true.
Proof.
  induction s as [|c s IH]; [done|]. cbn [no_separator trimEnd].
  intros [Hc Hs]%andb_true_iff. specialize (IH Hs).
  destruct (trimEnd s) as [|c' s'].
  - destruct (is_whitespace c); [done|]. cbn [no_separator]. by rewrite Hc.
  - cbn [no_separator] in *. by rewrite Hc, IH.
Qed.

(** X16.  The names the form sends are never empty, carry no surrounding
    white space and hold no comma and no line feed. *)
Theorem parse_names_clean input (name : string) :
  name ∈ parse_names input →
  name ≠ "" ∧ trim name = name ∧ no_separator name = true.
Proof.
  unfold parse_names. rewrite list_elem_of_In, filter_In, <- list_elem_of_In.
  intros [Hin Htruthy]. split; [by destruct name|].
  apply list_elem_of_fmap in Hin as (piece & -> & Hpiece).
  split; [apply trim_idempotent|].
  apply trimEnd_no_separator, trimStart_no_separator. exact (split_pieces _ _ Hpiece).
Qed.

Lemma filter_trim_clean (names : list string) :
  Forall (fun n => n ≠ "" ∧ trim n = n) names →
  List.filter truthy (trim <$> names) = names.
Proof.
  induction 1 as [|n names [Hne Htrim] _ IH]; [done|].
  cbn [fmap list_fmap List.filter]. rewrite Htrim.
  destruct n as [|c r]; [done|]. cbn [truthy]. by rewrite IH.
Qed.

(** X17.  Names that are non-empty, trimmed and free of commas and line
    feeds come back unchanged when they are written into the box separated
    by commas or by line feeds. *)
Theorem parse_names_join (c : ascii) (names : list string) :
  is_separator c = true →
  Forall (fun n => n ≠ "" ∧ trim n = n ∧ no_separator n = true) names →
  parse_names (String.concat (String c "") names) = names.
Proof.
  intros Hc Hnames. unfold parse_names.
  assert (names ≠ [] → split (String.concat (String c "") names) = names) as Hsplit.
  { induction Hnames as [|n names (_ & _ & Hn) Hrest IH]; [done|]. intros _.
    destruct names as [|n' names].
    - cbn [String.concat]. by apply split_no_separator.
    - change (String.concat (String c "") (n :: n' :: names))
        with (n +:+ String c "" +:+ String.concat (String c "") (n' :: names)).
      rewrite string_app_cons, string_app_nil_l, (split_app_separator _ _ _ Hn Hc).
      by rewrite IH. }
  destruct names as [|n names]; [done|]. rewrite Hsplit by done.
  apply filter_trim_clean. eapply Forall_impl; [exact Hnames|]. by intros ? (? & ? & _).
Qed.

End FormFacts.

Section FormRoute.

Context {W : Type} (github : Request → W → FetchResult * W).



Lemma resolve_each_order fuel raw results (s : St W) rs s' :
  resolve_each github fuel raw results s = (Ret rs, s') →
  ∃ evs,
    trace s' = trace s ++ evs
    ∧ sublist ((fun n => EvFetch (SearchCommits n)) <$> raw) evs
    ∧ (raw ≠ [] → last evs = Some (EvSleep 150)).
Proof.
  revert results s. induction raw as [|name raw IH]; intros results s Hrun.
  { injection Hrun as <- <-. exists []. rewrite app_nil_r. by repeat split. }
  rewrite resolve_each_cons in Hrun.
  destruct (resolveName github fuel name s) as [[r|msg|] s1] eqn:Hr; try done.
  destruct (github (SearchCommits name) (world s)) as [fr w1] eqn:H.
  destruct (resolveName_requests github _ _ _ _ _ _ _ H Hr) as (evs1 & Hevs1 & _).
  destruct (IH _ _ Hrun) as (evs2 & Hevs2 & Hsub & Hlast).
  exists (EvFetch (SearchCommits name) :: evs1 ++ EvSleep 150 :: evs2). split; [|split].
  - rewrite Hevs2. cbn [trace]. rewrite Hevs1, <- !app_assoc. reflexivity.
  - cbn [fmap list_fmap]. apply sublist_skip, sublist_inserts_l. by apply sublist_cons.
  - intros _. rewrite app_comm_cons, last_app. cbn [last].
    destruct raw as [|n raw].
    + injection Hrun as _ <-. cbn [trace] in Hevs2.
      assert (evs2 = []) as -> by (by apply (app_inv_head (trace s1 ++ [EvSleep 150]));
        rewrite app_nil_r).
      done.
    + by rewrite last_cons, Hlast.
Qed.

(** X20.  The handler takes the names one after the other: the commit
    searches of the names appear in the trace in input order (repeated
    names searched again), and with at least one name the last thing the
    handler does before it answers is the pause of 150 ms. *)
Theorem POST_in_order fuel inputs (s : St W) resp s' :
  POST github fuel (GoodBody inputs) s = (Ret resp, s') →
  ∃ evs,
    trace s' = trace s ++ evs
    ∧ sublist ((fun n => EvFetch (SearchCommits n)) <$> raw_names inputs) evs
    ∧ (raw_names inputs ≠ [] → last evs = Some (EvSleep 150)).
Proof.
  rewrite POST_unfold.
  destruct (resolve_each github fuel (raw_names inputs) [] s) as [[rs|msg|] s1] eqn:Hrun;
    try done.
  - intros [= _ <-]. by apply (resolve_each_order _ _ _ _ _ _ Hrun).
  - intros [= _ <-]. exfalso.
    destruct (resolve_each_cases github fuel (raw_names inputs) [] s)
      as [(? & ? & ? & Hr & _)|(? & Hd)]; congruence.
Qed.

End FormRoute.

(** ** The further properties at sample inputs *)

Section MoreInstances.

Import Sample.

Lemma downloadCSV_reads_back_witness :
  ∃ d,
    Csv.downloadCSV tricky_rows = Some d
    ∧ Csv.download d = "github_emails.csv"
    ∧ Csv.read (Csv.blob_text d) = Some (Csv.header :: (Csv.fields <$> tricky_rows)).
Proof.
  apply (downloadCSV_reads_back tricky_rows). intros H. discriminate H.
Defined.

Lemma raw_names_clean_witness : "amy" ≠ "" ∧ JsString.trim "amy" = "amy".
Proof.
  apply (raw_names_clean (Some [Some " amy "; None; Some "  "]) "amy").
  apply list_elem_of_In. vm_compute. left. reflexivity.
Defined.


Lemma resolveName_rows_witness :
  Forall (fun u => u_profileUrl u = "https://github.com/" +:+ u_login u
                   ∧ Forall (fun e => e ≠ "") (u_emails u)) (r_users acme_result).
Proof.
  eapply (resolveName_rows (stateless acme) 5 "acme" start acme_result).
  vm_compute. reflexivity.
Defined.

Lemma resolveName_users_witness :
  r_input acme_result = "acme"
  ∧ (r_type acme_result = type_user →
     ∃ u, r_users acme_result = [u] ∧ u_login u = "acme")
  ∧ (r_type acme_result = type_org →
     ∃ s2 members s3,
       catch (getOrgMembers (stateless acme) 5 "acme") [] s2 = (Ret members, s3)
       ∧ u_login <$> r_users acme_result = m_login <$> members
       ∧ Forall (fun u => u_login u ≠ "") (r_users acme_result)).
Proof.
  eapply (resolveName_users (stateless acme) 5 "acme" start acme_result).
  vm_compute. reflexivity.
Defined.

Lemma resolveName_commit_author_witness :
  resolveName (stateless acme) 0 "amy" start =
    (Ret (user_result "amy" (Some "Amy")
            (first_occurrences ["amy@x.org"; "amy@x.org"; "a@y.org"])),
     after start (SearchCommits "amy") ()).
Proof.
  apply (resolveName_commit_author (stateless acme) 0 "amy" start
           (acme (SearchCommits "amy")) ()).
  - reflexivity.
  - vm_compute. intros H. discriminate H.
Defined.

Lemma resolveName_profile_witness :
  resolveName (stateless acme) 0 "zed" start =
    (Ret (user_result "zed" None []),
     mkSt () (trace start ++ [EvFetch (SearchCommits "zed"); EvFetch (GetUser "zed");
                              EvFetch (GetUser "zed")]))
  ∧ length (public_email (acme (GetUser "zed"))) ≤ 1.
Proof.
  apply (resolveName_profile (stateless acme) 0 "zed" start
           (acme (SearchCommits "zed")) () (acme (GetUser "zed")) ()
           (acme (GetUser "zed")) ()); reflexivity.
Defined.

Lemma resolveName_unknown_witness :
  ∃ s', resolveName (stateless acme) 0 "zed" start = (Ret (user_result "zed" None []), s').
Proof.
  apply (resolveName_unknown (stateless acme) 0 "zed" start
           (acme (SearchCommits "zed")) () (acme (GetUser "zed")) ()
           (acme (GetUser "zed")) ()); reflexivity.
Defined.

Lemma tryCommitEmail_raises_witness :
  ∃ o,
    tryCommitEmail (stateless rate_limited) "amy" start =
      (o, after start (SearchCommits "amy") ())
    ∧ o ≠ Diverge
    ∧ (∀ msg, o = Throw msg ↔ Raises (rate_limited (SearchCommits "amy")) msg)
    ∧ (search_items (rate_limited (SearchCommits "amy")) = [] → ∀ r, o = Ret r → r = None).
Proof.
  apply (tryCommitEmail_raises (stateless rate_limited) "amy" start
           (rate_limited (SearchCommits "amy")) ()).
  reflexivity.
Defined.

(** A hundred members are read, then the second page is refused: the
    organization comes back without members. *)
Lemma getOrgMembers_failure_discards_witness :
  getOrgMembers (stateless forbidden_page) 2 "big" start =
    (Throw "Org members forbidden or rate limited (403).",
     mkSt () (trace start ++ page_events "big" 1 1))
  ∧ resolveOrg (stateless forbidden_page) 2 "big" start =
      (Ret {| r_input := "big"; r_type := type_org; r_users := [] |},
       mkSt () (trace start ++ page_events "big" 1 1)).
Proof.
  apply (getOrgMembers_failure_discards (stateless forbidden_page) 2 "big" start
           [page_of 100] (respond 403 JOther)
           "Org members forbidden or rate limited (403)." ()).
  - apply (Serves_page _ _ _ _ {| status := 200; body := Parsed (JArray (page_of 100)) |}
             (page_of 100) ()); [reflexivity | reflexivity | reflexivity |].
    apply Serves_last. reflexivity.
  - apply Forall_cons. split; [apply le_n | apply Forall_nil_2].
  - apply (Aborts_forbidden {| status := 403; body := Parsed JOther |}). reflexivity.
  - simpl. lia.
Defined.

(** The same with a 500 on the second page: the hundred members are kept. *)
Lemma getOrgMembers_break_keeps_witness :
  ∃ members,
    getOrgMembers (stateless failing_page) 2 "big" start =
      (Ret members, mkSt () (trace start ++ page_events "big" 1 1))
    ∧ m_login <$> members = replicate 100 "dev".
Proof.
  apply (getOrgMembers_break_keeps (stateless failing_page) 2 "big" start
           [page_of 100] (respond 500 JOther) ()).
  - apply (Serves_page _ _ _ _ {| status := 200; body := Parsed (JArray (page_of 100)) |}
             (page_of 100) ()); [reflexivity | reflexivity | reflexivity |].
    apply Serves_last. reflexivity.
  - apply Forall_cons. split; [apply le_n | apply Forall_nil_2].
  - apply (Breaks_status {| status := 500; body := Parsed JOther |}).
    + reflexivity.
    + intros H. discriminate H.
  - simpl. lia.
Defined.

Lemma parse_names_clean_witness :
  "vercel" ≠ "" ∧ JsString.trim "vercel" = "vercel" ∧ no_separator "vercel" = true.
Proof.
  apply (parse_names_clean "octocat,  vercel " "vercel").
  apply list_elem_of_In. vm_compute. right. left. reflexivity.
Defined.

Lemma parse_names_join_witness :
  parse_names (String.concat "," ["octocat"; "vercel"]) = ["octocat"; "vercel"].
Proof.
  apply (parse_names_join ","%char ["octocat"; "vercel"]).
  - reflexivity.
  - apply Forall_cons. split.
    { split; [intros H; discriminate H | split; reflexivity]. }
    apply Forall_cons. split; [|apply Forall_nil_2].
    split; [intros H; discriminate H | split; reflexivity].
Defined.


Lemma POST_in_order_witness :
  ∃ evs,
    trace (POST (stateless acme) 0 (GoodBody (Some [Some "zed"; Some "amy"; Some "zed"]))
             start).2
    = trace start ++ evs
    ∧ sublist ((fun n => EvFetch (SearchCommits n)) <$> ["zed"; "amy"; "zed"]) evs
    ∧ (["zed"; "amy"; "zed"] ≠ [] → last evs = Some (EvSleep 150)).
Proof.
  eapply (POST_in_order (stateless acme) 0 (Some [Some "zed"; Some "amy"; Some "zed"])
            start).
  vm_compute. reflexivity.
Defined.

End MoreInstances.
